(** * lexkey: order-preserving byte keys

    A shallow embedding of the Go package [lexkey] (files [lexkey.go],
    [primary_key.go], [range_key.go], and the single-file variant that
    carries the same encoders) together with the properties its
    specification states about it.

    Conventions of the embedding:
    - a Go [byte] is a [Byte.byte]; [byte.unsigned] is its value, and
      [byte.of_Z] is Go's truncating conversion [byte(x)];
    - a Go [[]byte] that may be [nil] (the type [LexKey]) is an
      [option (list byte)], [None] being the nil slice;
    - fixed-width integers are [Z] with the wrap-around of every
      conversion written out;
    - a [float64] / [float32] is its IEEE-754 bit pattern, read through
      the Standard Library's [spec_float]. *)

From Stdlib Require Import ZArith List Bool Lia String Ascii.
From Stdlib Require Import Floats.SpecFloat.
From coqutil Require Import Byte.
Import ListNotations.
Local Open Scope Z_scope.

(** ** Bytes and byte-wise comparison *)

(** [bytes.Compare] (equivalently [string(a) < string(b)]): plain
    lexicographic comparison of unsigned bytes, a proper prefix being
    smaller. *)
Fixpoint bytes_compare (a b : list byte) : comparison :=
  match a, b with
  | [], [] => Eq
  | [], _ :: _ => Lt
  | _ :: _, [] => Gt
  | x :: a', y :: b' =>
      match byte.unsigned x ?= byte.unsigned y with
      | Eq => bytes_compare a' b'
      | c => c
      end
  end.

Definition bytes_lt (a b : list byte) : Prop := bytes_compare a b = Lt.
Definition bytes_le (a b : list byte) : Prop := bytes_compare a b <> Gt.

(** ** Special bytes ([lexkey.go], the [const] block) *)

Definition Seperator : byte := byte.of_Z 0x00.
Definition EndMarker : byte := byte.of_Z 0xFF.

(** ** [LexKey] *)

Definition LexKey := option (list byte).

(** The bytes a slice holds; a nil slice holds none. *)
Definition bytes_of (k : LexKey) : list byte :=
  match k with
  | None => []
  | Some l => l
  end.

(** [k == nil] *)
Definition is_nil (k : LexKey) : bool :=
  match k with
  | None => true
  | Some _ => false
  end.

(** [len(k)] *)
Definition len (k : LexKey) : Z := Z.of_nat (List.length (bytes_of k)).

(** [append(s, elems...)]: appending nothing to a nil slice leaves it
    nil. *)
Definition append (s : LexKey) (elems : list byte) : LexKey :=
  match s, elems with
  | None, [] => None
  | None, _ :: _ => Some elems
  | Some l, _ => Some (l ++ elems)
  end.

(** ** [encoding/binary.BigEndian] *)

Definition PutUint64 (v : Z) : list byte :=
  [ byte.of_Z (Z.shiftr v 56); byte.of_Z (Z.shiftr v 48);
    byte.of_Z (Z.shiftr v 40); byte.of_Z (Z.shiftr v 32);
    byte.of_Z (Z.shiftr v 24); byte.of_Z (Z.shiftr v 16);
    byte.of_Z (Z.shiftr v 8); byte.of_Z v ].

Definition PutUint32 (v : Z) : list byte :=
  [ byte.of_Z (Z.shiftr v 24); byte.of_Z (Z.shiftr v 16);
    byte.of_Z (Z.shiftr v 8); byte.of_Z v ].

Definition PutUint16 (v : Z) : list byte :=
  [ byte.of_Z (Z.shiftr v 8); byte.of_Z v ].

(** ** Fixed-width integers *)

Definition is_int64 (v : Z) : Prop := - 2 ^ 63 <= v < 2 ^ 63.
Definition is_int32 (v : Z) : Prop := - 2 ^ 31 <= v < 2 ^ 31.
Definition is_int16 (v : Z) : Prop := - 2 ^ 15 <= v < 2 ^ 15.
Definition is_uint64 (v : Z) : Prop := 0 <= v < 2 ^ 64.
Definition is_uint32 (v : Z) : Prop := 0 <= v < 2 ^ 32.
Definition is_uint16 (v : Z) : Prop := 0 <= v < 2 ^ 16.

(** The conversions [uint64(v)], [uint32(v)], [uint16(v)] of a signed
    value: the two's-complement bits read as unsigned. *)
Definition to_uint64 (v : Z) : Z := v mod 2 ^ 64.
Definition to_uint32 (v : Z) : Z := v mod 2 ^ 32.
Definition to_uint16 (v : Z) : Z := v mod 2 ^ 16.

(** ** Integer encoders ([lexkey.go]) *)

Definition encodeInt64 (v : Z) : list byte :=
  PutUint64 (Z.lxor (to_uint64 v) 0x8000000000000000).

Definition encodeInt32 (v : Z) : list byte :=
  PutUint32 (Z.lxor (to_uint32 v) 0x80000000).

Definition encodeInt16 (v : Z) : list byte :=
  PutUint16 (Z.lxor (to_uint16 v) 0x8000).

Definition encodeUint64 (v : Z) : list byte := PutUint64 v.
Definition encodeUint32 (v : Z) : list byte := PutUint32 v.
Definition encodeUint16 (v : Z) : list byte := PutUint16 v.

(** ** IEEE-754 values

    A float is kept as the bit pattern [math.Float64bits] /
    [math.Float32bits] returns; its numeric reading is the Standard
    Library's [spec_float].  [mw] is the width of the stored mantissa,
    [ew] the width of the exponent field. *)

Definition decode_float (mw ew : Z) (bits : Z) : spec_float :=
  let s := Z.testbit bits (mw + ew) in
  let e := (Z.shiftr bits mw) mod 2 ^ ew in
  let m := bits mod 2 ^ mw in
  let bias := 2 ^ (ew - 1) - 1 in
  if e =? 0 then
    match m with
    | Zpos p => S754_finite s p (1 - bias - mw)
    | _ => S754_zero s
    end
  else if e =? 2 ^ ew - 1 then
    if m =? 0 then S754_infinity s else S754_nan
  else
    match m + 2 ^ mw with
    | Zpos p => S754_finite s p (e - bias - mw)
    | _ => S754_nan
    end.

Definition float64_val (v : Z) : spec_float := decode_float 52 11 v.
Definition float32_val (v : Z) : spec_float := decode_float 23 8 v.

(** [math.Float64bits(v)], [math.Float32bits(v)] *)
Definition Float64bits (v : Z) : Z := v.
Definition Float32bits (v : Z) : Z := v.

(** [math.IsNaN(f)], which the library computes as [f != f].  The
    conversion [float64(v)] of a [float32] is exact, so [IsNaN] is asked
    of the value itself. *)
Definition IsNaN (f : spec_float) : bool := negb (SFeqb f f).

(** The comparison [v < 0] on floats. *)
Definition float_lt0 (f : spec_float) : bool := SFltb f (S754_zero false).

(** [a < b] on float64 values. *)
Definition float64_lt (a b : Z) : bool := SFltb (float64_val a) (float64_val b).
Definition float32_lt (a b : Z) : bool := SFltb (float32_val a) (float32_val b).

(** ** Float encoders ([lexkey.go]) *)

Definition encodeFloat64 (v : Z) : list byte :=
  if IsNaN (float64_val v) then
    PutUint64 0x7FF8000000000001
  else
    let bits := Float64bits v in
    let bits :=
      if float_lt0 (float64_val v)
      then Z.lxor (Z.ones 64) bits
      else Z.lxor bits (Z.shiftl 1 63) in
    PutUint64 bits.

Definition encodeFloat32 (v : Z) : list byte :=
  if IsNaN (float32_val v) then
    PutUint32 0x7FC00001
  else
    let bits := Float32bits v in
    let bits :=
      if float_lt0 (float32_val v)
      then Z.lxor (Z.ones 32) bits
      else Z.lxor bits (Z.shiftl 1 31) in
    PutUint32 bits.

(** ** Parts of a key: the dynamic values of type [any]

    One constructor per arm of the type switch in [encodeToBytes], and
    [AOther T] for a value of any dynamic type the switch does not name
    ([T] is the type as [%T] prints it: [int8], [uint], [chan int],
    [lexkey.LexKey], ...). *)

Record Time := mkTime { unixSec : Z; nsec : Z }.

(** [t.UTC().UnixNano()]: [UTC] keeps the instant, [UnixNano] wraps in
    an int64. *)
Definition UnixNano (t : Time) : Z :=
  (unixSec t * 1000000000 + nsec t + 2 ^ 63) mod 2 ^ 64 - 2 ^ 63.

Inductive any : Type :=
| AString (s : list byte)
| AUUID (u : list byte)
| ABytes (b : LexKey)
| AInt (v : Z)
| AInt64 (v : Z)
| AInt32 (v : Z)
| AInt16 (v : Z)
| AUint64 (v : Z)
| AUint32 (v : Z)
| AUint16 (v : Z)
| AUint8 (v : byte)
| AFloat64 (v : Z)
| AFloat32 (v : Z)
| ABool (v : bool)
| ATime (t : Time)
| ADuration (v : Z)
| ANil
| AEmptyStruct
| AOther (T : string).

(** What [%T] prints for a part. *)
Definition type_name (v : any) : string :=
  match v with
  | AString _ => "string"
  | AUUID _ => "uuid.UUID"
  | ABytes _ => "[]uint8"
  | AInt _ => "int"
  | AInt64 _ => "int64"
  | AInt32 _ => "int32"
  | AInt16 _ => "int16"
  | AUint64 _ => "uint64"
  | AUint32 _ => "uint32"
  | AUint16 _ => "uint16"
  | AUint8 _ => "uint8"
  | AFloat64 _ => "float64"
  | AFloat32 _ => "float32"
  | ABool _ => "bool"
  | ATime _ => "time.Time"
  | ADuration _ => "time.Duration"
  | ANil => "<nil>"
  | AEmptyStruct => "struct {}"
  | AOther T => T
  end.

(** The kinds the specification's data model lists as supported: text,
    bytes, UUID, boolean, signed 16/32/64-bit and platform integers,
    unsigned 8/16/32/64-bit integers, both floats, instant, interval and
    the absent value. *)
Definition supported_kind (v : any) : bool :=
  match v with
  | AString _ | ABytes _ | AUUID _ | ABool _ => true
  | AInt16 _ | AInt32 _ | AInt64 _ | AInt _ => true
  | AUint8 _ | AUint16 _ | AUint32 _ | AUint64 _ => true
  | AFloat32 _ | AFloat64 _ => true
  | ATime _ | ADuration _ | ANil => true
  | AEmptyStruct | AOther _ => false
  end.

(** ** Errors: a Go [error] is kept as its message. *)

Definition error := string.

(** [fmt.Errorf("unsupported key type: %T", v)] for a part of type [T]. *)
Definition unsupported (T : string) : error := ("unsupported key type: " ++ T)%string.

(** ** [encodeToBytes] ([lexkey.go]) *)

Definition encodeToBytes (v : any) : LexKey * option error :=
  match v with
  | AString s => (Some s, None)
  | AUUID u => (Some u, None)
  | ABytes b => (b, None)
  | AInt v => (Some (encodeInt64 v), None)
  | AInt64 v => (Some (encodeInt64 v), None)
  | AInt32 v => (Some (encodeInt32 v), None)
  | AInt16 v => (Some (encodeInt16 v), None)
  | AUint64 v => (Some (encodeUint64 v), None)
  | AUint32 v => (Some (encodeUint32 v), None)
  | AUint16 v => (Some (encodeUint16 v), None)
  | AUint8 v => (Some [v], None)
  | AFloat64 v => (Some (encodeFloat64 v), None)
  | AFloat32 v => (Some (encodeFloat32 v), None)
  | ABool v =>
      if v then (Some [byte.of_Z 1], None) else (Some [byte.of_Z 0], None)
  | ATime t => (Some (encodeInt64 (UnixNano t)), None)
  | ADuration v => (Some (encodeInt64 v), None)
  | ANil => (Some [byte.of_Z 0x00], None)
  | AEmptyStruct => (Some [byte.of_Z 0xFF], None)
  | AOther T => (None, Some (unsupported (type_name v)))
  end.

(** ** [NewLexKey] ([lexkey.go])

    [NewLexKey_loop n i parts result] is the [for i, part := range parts]
    loop from index [i] on, [n] being [len(parts)] of the whole call. *)

Fixpoint NewLexKey_loop (n i : Z) (parts : list any) (result : LexKey)
  : LexKey * option error :=
  match parts with
  | [] => (result, None)
  | part :: rest =>
      match encodeToBytes part with
      | (_, Some err) => (None, Some err)
      | (encoded, None) =>
          let result := append result (bytes_of encoded) in
          let result :=
            if i <? n - 1 then append result [Seperator] else result in
          NewLexKey_loop n (i + 1) rest result
      end
  end.

Definition NewLexKey (parts : list any) : LexKey * option error :=
  if Z.of_nat (List.length parts) =? 0 then
    (None, Some "empty keys are not allowed"%string)
  else
    NewLexKey_loop (Z.of_nat (List.length parts)) 0 parts None.

(** ** Buffers: [make], [copy], indexed stores

    An indexed store or a slice expression outside the buffer panics in
    Go; [outcome] keeps that possibility in the model. *)

Inductive outcome (A : Type) : Type :=
| Returns (a : A)
| Panics.
Arguments Returns {A} a.
Arguments Panics {A}.

Definition bind {A B : Type} (m : outcome A) (k : A -> outcome B) : outcome B :=
  match m with
  | Returns a => k a
  | Panics => Panics
  end.

Notation "x <- m ;; k" := (bind m (fun x => k))
  (at level 61, m at next level, right associativity).

(** [make(LexKey, size)]: [size] zero bytes; a negative size panics. *)
Definition make (size : Z) : outcome (list byte) :=
  if size <? 0 then Panics
  else Returns (repeat (byte.of_Z 0) (Z.to_nat size)).

(** Overwrite the front of [dst] with as much of [src] as fits. *)
Fixpoint overwrite (dst src : list byte) : list byte :=
  match dst, src with
  | d :: dst', s :: src' => s :: overwrite dst' src'
  | _, _ => dst
  end.

(** [copy(buf[n:], src)]: the buffer afterwards and the number of bytes
    copied.  The slice expression [buf[n:]] panics unless
    [0 <= n <= len(buf)]. *)
Definition copy (buf : list byte) (n : Z) (src : LexKey) : outcome (list byte * Z) :=
  if (0 <=? n) && (n <=? Z.of_nat (List.length buf)) then
    let front := firstn (Z.to_nat n) buf in
    let back := skipn (Z.to_nat n) buf in
    Returns (front ++ overwrite back (bytes_of src),
             Z.min (Z.of_nat (List.length back)) (len src))
  else Panics.

(** [buf[i] = b]; panics unless [0 <= i < len(buf)]. *)
Definition store (buf : list byte) (i : Z) (b : byte) : outcome (list byte) :=
  if (0 <=? i) && (i <? Z.of_nat (List.length buf)) then
    Returns (firstn (Z.to_nat i) buf ++ b :: skipn (Z.to_nat (i + 1)) buf)
  else Panics.

(** ** [PrimaryKey] ([primary_key.go]) *)

Record PrimaryKey := mkPrimaryKey { PartitionKey : LexKey; RowKey : LexKey }.

(** The zero value [PrimaryKey{}]. *)
Definition PrimaryKey_zero : PrimaryKey := mkPrimaryKey None None.

(** [NewPrimaryKey] of [primary_key.go].  Its result type is
    [PrimaryKey] alone; the second component here is what the call hands
    to [slog.Error]. *)
Definition NewPrimaryKey (partitionKey rowKey : LexKey) : PrimaryKey * list string :=
  if is_nil partitionKey || is_nil rowKey then
    (PrimaryKey_zero, ["partitionKey and rowKey cannot be nil"%string])
  else
    (mkPrimaryKey partitionKey rowKey, []).

(** [PrimaryKey.Encode] *)
Definition PrimaryKey_Encode (pk : PrimaryKey) : outcome LexKey :=
  result <- make (len (PartitionKey pk) + len (RowKey pk) + 1) ;;
  r1 <- copy result 0 (PartitionKey pk) ;;
  let '(result, n) := r1 in
  result <- store result n Seperator ;;
  r2 <- copy result (n + 1) (RowKey pk) ;;
  Returns (Some (fst r2)).

(** The single-file variant of the package declares [NewPrimaryKey]
    with an [error] result. *)
Module SingleFile.

Definition NewPrimaryKey (partitionKey rowKey : LexKey) : PrimaryKey * option error :=
  if is_nil partitionKey || is_nil rowKey then
    (PrimaryKey_zero, Some "partitionKey and rowKey cannot be nil"%string)
  else
    (mkPrimaryKey partitionKey rowKey, None).

(** [Encode] of the single-file variant hands back [NewLexKey]'s pair. *)
Definition Encode (parts : list any) : LexKey * option error := NewLexKey parts.

(** The method [LexKey.EncodeLast] of the single-file variant. *)
Definition EncodeLast (e : LexKey) : outcome (list byte) :=
  newKey <- make (len e + 1) ;;
  r <- copy newKey 0 e ;;
  store (fst r) (len e) EndMarker.

End SingleFile.

(** ** [RangeKey] ([range_key.go])

    The field [PartitionKey] of the source is [rkPartitionKey] here, the
    name being taken by the projection of [PrimaryKey]. *)

Record RangeKey := mkRangeKey {
  rkPartitionKey : LexKey;
  StartRowKey : LexKey;
  EndRowKey : LexKey
}.

Definition NewRangeKey (partition lower upper : LexKey) : RangeKey :=
  mkRangeKey partition lower upper.

Definition ternary (cond : bool) (a b : byte) : byte :=
  if cond then a else b.

(** [encodeBoundary] *)
Definition encodeBoundary (partitionKey rowKey : LexKey) (isUpper withPartitionKey : bool)
  : outcome LexKey :=
  let size := if withPartitionKey then len partitionKey else 0 in
  let size :=
    if len rowKey >? 0 then
      let size := size + (1 + len rowKey) in
      if isUpper then size + 1 else size
    else size + 1 in
  result <- make size ;;
  let n := 0 in
  r <- (if withPartitionKey
        then r <- copy result 0 partitionKey ;; Returns (fst r, n + snd r)
        else Returns (result, n)) ;;
  let '(result, n) := r in
  if len rowKey =? 0 then
    result <- store result n (ternary isUpper EndMarker Seperator) ;;
    Returns (Some result)
  else
    result <- store result n Seperator ;;
    let n := n + 1 in
    r <- copy result n rowKey ;;
    let result := fst r in
    if isUpper then
      result <- store result (Z.of_nat (List.length result) - 1) EndMarker ;;
      Returns (Some result)
    else Returns (Some result).

(** [RangeKey.Encode] *)
Definition RangeKey_Encode (rk : RangeKey) (withPartitionKey : bool)
  : outcome (LexKey * LexKey) :=
  lower <- encodeBoundary (rkPartitionKey rk) (StartRowKey rk) false withPartitionKey ;;
  upper <- encodeBoundary (rkPartitionKey rk) (EndRowKey rk) true withPartitionKey ;;
  Returns (lower, upper).

(** ** Text and hexadecimal, for the vectors of the package's tests *)

(** [[]byte(s)] / [LexKey(s)] of a string literal. *)
Definition text (s : string) : list byte := list_byte_of_string s.

Definition hex_digit (n : Z) : string :=
  String.substring (Z.to_nat n) 1 "0123456789abcdef".

(** [hex.EncodeToString] *)
Fixpoint hex (l : list byte) : string :=
  match l with
  | [] => EmptyString
  | b :: l' =>
      (hex_digit (byte.unsigned b / 16) ++ hex_digit (byte.unsigned b mod 16)
       ++ hex l')%string
  end.

(** ** Auxiliary readings used by the proofs *)

(** The [n] low-order bytes of [v], most significant first. *)
Fixpoint be_bytes (n : nat) (v : Z) : list byte :=
  match n with
  | O => []
  | S k => byte.of_Z (Z.shiftr v (8 * Z.of_nat k)) :: be_bytes k v
  end.

(** A float's bit pattern read as a sign-and-magnitude integer: the
    magnitude is the pattern without its sign bit ([w] is the position of
    the sign bit). *)
Definition sign_magnitude (w : Z) (bits : Z) : Z :=
  if bits <? 2 ^ w then bits else - (bits - 2 ^ w).

(** The bit patterns of negative zero. *)
Definition negzero64 : Z := 0x8000000000000000.
Definition negzero32 : Z := 0x80000000.

(** A sign and a magnitude as one integer. *)
Definition signed (s : bool) (x : Z) : Z := if s then - x else x.

(** [decode_float] on the three fields of a pattern: sign [s], biased
    exponent [e], stored mantissa [m]. *)
Definition decode_fields (mw ew : Z) (s : bool) (e m : Z) : spec_float :=
  let bias := 2 ^ (ew - 1) - 1 in
  if e =? 0 then
    match m with
    | Zpos p => S754_finite s p (1 - bias - mw)
    | _ => S754_zero s
    end
  else if e =? 2 ^ ew - 1 then
    if m =? 0 then S754_infinity s else S754_nan
  else
    match m + 2 ^ mw with
    | Zpos p => S754_finite s p (e - bias - mw)
    | _ => S754_nan
    end.

(** The fields of a NaN: all-ones exponent, non-zero mantissa. *)
Definition fields_nan (ew : Z) (e m : Z) : bool :=
  (e =? 2 ^ ew - 1) && negb (m =? 0).

(** ** The rest of [lexkey.go] *)

(** [Encode]: [NewLexKey], with a panic in place of the error. *)
Definition Encode (parts : list any) : outcome LexKey :=
  match NewLexKey parts with
  | (_, Some _) => Panics
  | (key, None) => Returns key
  end.

(** [EncodeFirst] *)
Definition EncodeFirst (parts : list any) : outcome LexKey :=
  prefix <- Encode parts ;;
  newKey <- make (len prefix + 1) ;;
  r <- copy newKey 0 prefix ;;
  newKey <- store (fst r) (len prefix) Seperator ;;
  Returns (Some newKey).

(** [EncodeLast] *)
Definition EncodeLast (parts : list any) : outcome LexKey :=
  prefix <- Encode parts ;;
  newKey <- make (len prefix + 1) ;;
  r <- copy newKey 0 prefix ;;
  newKey <- store (fst r) (len prefix) EndMarker ;;
  Returns (Some newKey).

(** [LexKey.IsEmpty] *)
Definition IsEmpty (e : LexKey) : bool := len e =? 0.

(** *** [encoding/hex] *)

(** The errors of [encoding/hex]: [hex.ErrLength] and
    [hex.InvalidByteError]. *)
Inductive hex_error : Type :=
| ErrLength
| InvalidByteError (c : Ascii.ascii).

(** [reverseHexTable]: the value of a hexadecimal digit of either case,
    [0xff] for any other byte. *)
Definition reverseHexTable (c : Ascii.ascii) : Z :=
  let n := Z.of_N (Ascii.N_of_ascii c) in
  if (48 <=? n) && (n <=? 57) then n - 48
  else if (97 <=? n) && (n <=? 102) then n - 87
  else if (65 <=? n) && (n <=? 70) then n - 55
  else 0xff.

(** [hex.DecodeString]: the bytes decoded so far and the error, pairs of
    digits being read from the left; a lone last digit is checked for
    validity before the odd length is reported. *)
Fixpoint DecodeString (s : string) : list byte * option hex_error :=
  match s with
  | EmptyString => ([], None)
  | String p EmptyString =>
      if reverseHexTable p >? 0x0f then ([], Some (InvalidByteError p))
      else ([], Some ErrLength)
  | String p (String q rest) =>
      let a := reverseHexTable p in
      let b := reverseHexTable q in
      if a >? 0x0f then ([], Some (InvalidByteError p))
      else if b >? 0x0f then ([], Some (InvalidByteError q))
      else
        let '(bytes, err) := DecodeString rest in
        (byte.of_Z (Z.lor (Z.shiftl a 4) b) :: bytes, err)
  end.

(** [errors.Is(err, hex.ErrLength)] *)
Definition is_ErrLength (err : hex_error) : bool :=
  match err with
  | ErrLength => true
  | InvalidByteError _ => false
  end.

(** The two errors [FromHexString] builds with [fmt.Errorf] and [%w]
    around the cause. *)
Inductive hex_string_error : Type :=
| InvalidHexLength (cause : hex_error)
| HexDecodeFailed (cause : hex_error).

(** [LexKey.ToHexString] *)
Definition ToHexString (e : LexKey) : string :=
  if len e =? 0 then EmptyString else hex (bytes_of e).

(** [LexKey.FromHexString], a method on a pointer: the receiver
    afterwards, and the error. *)
Definition FromHexString (e : LexKey) (hexStr : string)
  : LexKey * option hex_string_error :=
  if Z.of_nat (String.length hexStr) =? 0 then (Some [], None)
  else
    match DecodeString hexStr with
    | (_, Some err) =>
        if is_ErrLength err then (e, Some (InvalidHexLength err))
        else (e, Some (HexDecodeFailed err))
    | (bytes, None) => (Some bytes, None)
    end.

(** ** Auxiliary notions for the further properties *)

(** The bytes [encodeToBytes] gives for a part. *)
Definition part_bytes (v : any) : list byte := bytes_of (fst (encodeToBytes v)).

(** Byte strings joined by the separator. *)
Fixpoint join (l : list (list byte)) : list byte :=
  match l with
  | [] => []
  | [x] => x
  | x :: rest => x ++ Seperator :: join rest
  end.

(** A hexadecimal digit of either case. *)
Definition is_hex_digit (c : Ascii.ascii) : bool := reverseHexTable c <=? 0x0f.

(** A string of hexadecimal digits only. *)
Fixpoint all_hex (s : string) : bool :=
  match s with
  | EmptyString => true
  | String c rest => is_hex_digit c && all_hex rest
  end.

(** Membership in the half-open interval [[lower, upper)]. *)
Definition in_range (lower upper key : list byte) : Prop :=
  bytes_le lower key /\ bytes_lt key upper.

(** * Properties *)

(** ** The vectors of the package's test suite

    [TestNewLexKey], [TestPrimaryKey], [TestRangeKey] and
    [TestEncodeBoundary_WithoutRowKey], evaluated on the embedding.  The
    float literals are given by their bits: [3.14] is
    [0x40091EB851EB851F] as a float64 and [0x4048F5C3] as a float32. *)

Lemma package_test_vectors :
  option_map hex (fst (NewLexKey [AString (text "hello")])) = Some "68656c6c6f"%string /\
  option_map hex (fst (NewLexKey [AInt 123])) = Some "800000000000007b"%string /\
  option_map hex (fst (NewLexKey [AInt (-123)])) = Some "7fffffffffffff85"%string /\
  option_map hex (fst (NewLexKey [AInt16 123])) = Some "807b"%string /\
  option_map hex (fst (NewLexKey [AInt16 (-123)])) = Some "7f85"%string /\
  option_map hex (fst (NewLexKey [AInt32 123])) = Some "8000007b"%string /\
  option_map hex (fst (NewLexKey [AInt32 (-123)])) = Some "7fffff85"%string /\
  option_map hex (fst (NewLexKey [AUint16 123])) = Some "007b"%string /\
  option_map hex (fst (NewLexKey [AUint64 123])) = Some "000000000000007b"%string /\
  option_map hex (fst (NewLexKey [AFloat32 0x4048F5C3])) = Some "c048f5c3"%string /\
  option_map hex (fst (NewLexKey [AFloat64 0x40091EB851EB851F])) =
    Some "c0091eb851eb851f"%string /\
  option_map hex (fst (NewLexKey [AFloat32 0xC048F5C3])) = Some "3fb70a3c"%string /\
  option_map hex (fst (NewLexKey [AFloat64 0xC0091EB851EB851F])) =
    Some "3ff6e147ae147ae0"%string /\
  option_map hex (fst (NewLexKey [ATime (mkTime 1700000000 0)])) =
    Some "97979cfe362a0000"%string /\
  option_map hex (fst (NewLexKey [ADuration 42])) = Some "800000000000002a"%string /\
  option_map hex (fst (NewLexKey [AString (text "foo"); AInt 42; ABool true])) =
    Some "666f6f00800000000000002a0001"%string /\
  option_map hex (fst (NewLexKey [AEmptyStruct])) = Some "ff"%string /\
  snd (NewLexKey [AOther "chan int"]) = Some "unsupported key type: chan int"%string /\
  PrimaryKey_Encode (fst (NewPrimaryKey (Some (text "partition")) (Some (text "row")))) =
    Returns (Some (text "partition" ++ [Seperator] ++ text "row")) /\
  encodeBoundary (Some (text "partition")) None false true =
    Returns (Some (text "partition" ++ [Seperator])) /\
  encodeBoundary (Some (text "partition")) None true true =
    Returns (Some (text "partition" ++ [EndMarker])).
Proof. repeat split. Qed.

(** ** Byte-wise comparison *)

Lemma bytes_compare_refl a : bytes_compare a a = Eq.
Proof.
  induction a as [| x a IH]; simpl; [reflexivity |].
  now rewrite Z.compare_refl.
Qed.

Lemma bytes_compare_eq a b : bytes_compare a b = Eq -> a = b.
Proof.
  revert b; induction a as [| x a IH]; intros [| y b]; simpl; try discriminate; auto.
  destruct (Z.compare_spec (byte.unsigned x) (byte.unsigned y)) as [E | L | G];
    try discriminate.
  intros H. apply byte.unsigned_inj in E. f_equal; auto.
Qed.

Lemma bytes_compare_antisym a b :
  bytes_compare b a = CompOpp (bytes_compare a b).
Proof.
  revert b; induction a as [| x a IH]; intros [| y b]; simpl; auto.
  rewrite (Z.compare_antisym (byte.unsigned x) (byte.unsigned y)).
  destruct (byte.unsigned x ?= byte.unsigned y); simpl; auto.
Qed.

(** A common prefix does not take part in the comparison. *)
Lemma bytes_compare_app p a b :
  bytes_compare (p ++ a) (p ++ b) = bytes_compare a b.
Proof.
  induction p as [| x p IH]; simpl; [reflexivity |].
  now rewrite Z.compare_refl.
Qed.

Lemma bytes_le_iff a b : bytes_le a b <-> bytes_lt a b \/ a = b.
Proof.
  unfold bytes_le, bytes_lt. split.
  - intros H. destruct (bytes_compare a b) eqn:E; try tauto.
    right. now apply bytes_compare_eq.
  - intros [H | ->]; [rewrite H | rewrite bytes_compare_refl]; discriminate.
Qed.

(** Two keys of one length that differ keep their order when the second
    is extended. *)
Lemma bytes_compare_app_r_ne a b c :
  List.length a = List.length b -> bytes_compare a b <> Eq ->
  bytes_compare a (b ++ c) = bytes_compare a b.
Proof.
  revert b; induction a as [| x a IH]; intros [| y b]; simpl; try discriminate.
  - congruence.
  - intros L N. destruct (byte.unsigned x ?= byte.unsigned y); auto.
Qed.

(** ** Big-endian bytes order like the numbers they hold *)

Lemma length_be_bytes n v : List.length (be_bytes n v) = n.
Proof. induction n; simpl; auto. Qed.

Lemma compare_split (B hx hy lx ly : Z) :
  0 <= lx < B -> 0 <= ly < B ->
  (lx + B * hx ?= ly + B * hy) =
  match hx ?= hy with Eq => lx ?= ly | c => c end.
Proof.
  intros Hx Hy.
  destruct (Z.compare_spec hx hy) as [E | L | G].
  - subst hy.
    destruct (Z.compare_spec lx ly);
      [apply Z.compare_eq_iff | apply Z.compare_lt_iff | apply Z.compare_gt_iff]; lia.
  - apply Z.compare_lt_iff. nia.
  - apply Z.compare_gt_iff. nia.
Qed.

Lemma be_bytes_compare n x y :
  bytes_compare (be_bytes n x) (be_bytes n y) =
  (x mod 2 ^ (8 * Z.of_nat n) ?= y mod 2 ^ (8 * Z.of_nat n)).
Proof.
  induction n as [| k IH].
  - simpl. now rewrite !Z.mod_1_r.
  - cbn [be_bytes bytes_compare].
    rewrite !byte.unsigned_of_Z. unfold byte.wrap.
    rewrite !Z.shiftr_div_pow2 by lia.
    replace (8 * Z.of_nat (S k)) with (8 * Z.of_nat k + 8) by lia.
    rewrite Z.pow_add_r by lia.
    set (B := 2 ^ (8 * Z.of_nat k)) in *.
    assert (HB : 0 < B) by (apply Z.pow_pos_nonneg; lia).
    rewrite !(Z.rem_mul_r _ B (2 ^ 8)) by lia.
    rewrite compare_split by (apply Z.mod_pos_bound; lia).
    rewrite IH. reflexivity.
Qed.

Lemma PutUint64_compare x y :
  is_uint64 x -> is_uint64 y ->
  bytes_compare (PutUint64 x) (PutUint64 y) = (x ?= y).
Proof.
  unfold is_uint64. intros Hx Hy.
  change (PutUint64 x) with (be_bytes 8 x).
  change (PutUint64 y) with (be_bytes 8 y).
  rewrite be_bytes_compare.
  change (8 * Z.of_nat 8) with 64.
  now rewrite !Z.mod_small by assumption.
Qed.

Lemma PutUint32_compare x y :
  is_uint32 x -> is_uint32 y ->
  bytes_compare (PutUint32 x) (PutUint32 y) = (x ?= y).
Proof.
  unfold is_uint32. intros Hx Hy.
  change (PutUint32 x) with (be_bytes 4 x).
  change (PutUint32 y) with (be_bytes 4 y).
  rewrite be_bytes_compare.
  change (8 * Z.of_nat 4) with 32.
  now rewrite !Z.mod_small by assumption.
Qed.

Lemma PutUint16_compare x y :
  is_uint16 x -> is_uint16 y ->
  bytes_compare (PutUint16 x) (PutUint16 y) = (x ?= y).
Proof.
  unfold is_uint16. intros Hx Hy.
  change (PutUint16 x) with (be_bytes 2 x).
  change (PutUint16 y) with (be_bytes 2 y).
  rewrite be_bytes_compare.
  change (8 * Z.of_nat 2) with 16.
  now rewrite !Z.mod_small by assumption.
Qed.

(** ** Flipping the top bit *)

Lemma land_pow2_small n w : 0 <= n -> 0 <= w < 2 ^ n -> Z.land w (2 ^ n) = 0.
Proof.
  intros Hn Hw. apply Z.bits_inj'. intros i Hi.
  rewrite Z.land_spec, Z.bits_0, Z.pow2_bits_eqb by lia.
  destruct (Z.eqb_spec n i) as [-> | Hne]; [| apply andb_false_r].
  rewrite <- (Z.mod_small w (2 ^ i)) by lia.
  rewrite Z.mod_pow2_bits_high by lia. reflexivity.
Qed.

Lemma lxor_pow2_set n w : 0 <= n -> 0 <= w < 2 ^ n -> Z.lxor w (2 ^ n) = w + 2 ^ n.
Proof.
  intros Hn Hw. symmetry. apply Z.add_nocarry_lxor. now apply land_pow2_small.
Qed.

Lemma lxor_pow2_clear n w : 0 <= n -> 0 <= w < 2 ^ n -> Z.lxor (w + 2 ^ n) (2 ^ n) = w.
Proof.
  intros Hn Hw. rewrite <- (lxor_pow2_set n w) by assumption.
  now rewrite Z.lxor_assoc, Z.lxor_nilpotent, Z.lxor_0_r.
Qed.

(** The sign-bit flip of a [n+1]-bit two's-complement number is the
    addition of [2^n]. *)
Lemma flip_sign_bit n v :
  0 <= n -> - 2 ^ n <= v < 2 ^ n ->
  Z.lxor (v mod 2 ^ (n + 1)) (2 ^ n) = v + 2 ^ n.
Proof.
  intros Hn Hv.
  assert (Hp : 2 ^ (n + 1) = 2 * 2 ^ n) by (rewrite Z.pow_add_r by lia; lia).
  destruct (Z.lt_ge_cases v 0) as [Hneg | Hpos].
  - replace (v mod 2 ^ (n + 1)) with ((v + 2 ^ n) + 2 ^ n).
    + rewrite lxor_pow2_clear by lia. reflexivity.
    + apply Z.mod_unique with (q := -1); lia.
  - rewrite Z.mod_small by lia. apply lxor_pow2_set; lia.
Qed.

Lemma lxor_ones n w : 0 <= n -> 0 <= w < 2 ^ n -> Z.lxor (Z.ones n) w = 2 ^ n - 1 - w.
Proof.
  intros Hn Hw.
  replace (2 ^ n - 1 - w) with (Z.lnot w mod 2 ^ n).
  - apply Z.bits_inj'. intros i Hi.
    rewrite Z.lxor_spec, Z.testbit_ones by lia.
    destruct (Z.ltb_spec i n) as [Hlt | Hge].
    + rewrite Z.mod_pow2_bits_low, Z.lnot_spec by lia.
      replace (0 <=? i) with true by (symmetry; apply Z.leb_le; lia). reflexivity.
    + rewrite Z.mod_pow2_bits_high by lia.
      rewrite andb_false_r. simpl.
      rewrite <- (Z.mod_small w (2 ^ n)) by lia.
      now rewrite Z.mod_pow2_bits_high by lia.
  - unfold Z.lnot. symmetry. apply Z.mod_unique with (q := -1); lia.
Qed.

(** ** Signed integers *)

Lemma encodeInt64_value v :
  is_int64 v -> encodeInt64 v = PutUint64 (v + 2 ^ 63).
Proof.
  unfold is_int64, encodeInt64, to_uint64. intros Hv.
  change 0x8000000000000000 with (2 ^ 63).
  change (2 ^ 64) with (2 ^ (63 + 1)).
  now rewrite flip_sign_bit by lia.
Qed.

Lemma encodeInt32_value v :
  is_int32 v -> encodeInt32 v = PutUint32 (v + 2 ^ 31).
Proof.
  unfold is_int32, encodeInt32, to_uint32. intros Hv.
  change 0x80000000 with (2 ^ 31).
  change (2 ^ 32) with (2 ^ (31 + 1)).
  now rewrite flip_sign_bit by lia.
Qed.

Lemma encodeInt16_value v :
  is_int16 v -> encodeInt16 v = PutUint16 (v + 2 ^ 15).
Proof.
  unfold is_int16, encodeInt16, to_uint16. intros Hv.
  change 0x8000 with (2 ^ 15).
  change (2 ^ 16) with (2 ^ (15 + 1)).
  now rewrite flip_sign_bit by lia.
Qed.

Lemma encodeInt64_compare a b :
  is_int64 a -> is_int64 b ->
  bytes_compare (encodeInt64 a) (encodeInt64 b) = (a ?= b).
Proof.
  intros Ha Hb. rewrite !encodeInt64_value by assumption.
  unfold is_int64 in *.
  rewrite PutUint64_compare by (unfold is_uint64; lia).
  destruct (Z.compare_spec a b);
    [apply Z.compare_eq_iff | apply Z.compare_lt_iff | apply Z.compare_gt_iff]; lia.
Qed.

Lemma encodeInt32_compare a b :
  is_int32 a -> is_int32 b ->
  bytes_compare (encodeInt32 a) (encodeInt32 b) = (a ?= b).
Proof.
  intros Ha Hb. rewrite !encodeInt32_value by assumption.
  unfold is_int32 in *.
  rewrite PutUint32_compare by (unfold is_uint32; lia).
  destruct (Z.compare_spec a b);
    [apply Z.compare_eq_iff | apply Z.compare_lt_iff | apply Z.compare_gt_iff]; lia.
Qed.

Lemma encodeInt16_compare a b :
  is_int16 a -> is_int16 b ->
  bytes_compare (encodeInt16 a) (encodeInt16 b) = (a ?= b).
Proof.
  intros Ha Hb. rewrite !encodeInt16_value by assumption.
  unfold is_int16 in *.
  rewrite PutUint16_compare by (unfold is_uint16; lia).
  destruct (Z.compare_spec a b);
    [apply Z.compare_eq_iff | apply Z.compare_lt_iff | apply Z.compare_gt_iff]; lia.
Qed.

(** C7.  For each signed width 16, 32 and 64 on its own: whenever [a < b]
    are two integers of that width, the encoding of [a] (two's-complement
    bits read as unsigned, sign bit flipped, big-endian) is byte-wise
    lexicographically smaller than the encoding of [b]. *)
Theorem signed_encoders_preserve_order (a b : Z) (Hab : a < b) :
  (is_int16 a -> is_int16 b -> bytes_lt (encodeInt16 a) (encodeInt16 b)) /\
  (is_int32 a -> is_int32 b -> bytes_lt (encodeInt32 a) (encodeInt32 b)) /\
  (is_int64 a -> is_int64 b -> bytes_lt (encodeInt64 a) (encodeInt64 b)).
Proof.
  unfold bytes_lt. repeat split; intros Ha Hb.
  - rewrite encodeInt16_compare by assumption. now apply Z.compare_lt_iff.
  - rewrite encodeInt32_compare by assumption. now apply Z.compare_lt_iff.
  - rewrite encodeInt64_compare by assumption. now apply Z.compare_lt_iff.
Qed.

Lemma signed_encoders_preserve_order_witness :
  bytes_lt (encodeInt16 (-32768)) (encodeInt16 32767) /\
  bytes_lt (encodeInt32 (-1)) (encodeInt32 0) /\
  bytes_lt (encodeInt64 (-123)) (encodeInt64 123).
Proof.
  split; [| split].
  - apply (proj1 (signed_encoders_preserve_order (-32768) 32767 ltac:(lia)));
      unfold is_int16; simpl; lia.
  - apply (proj1 (proj2 (signed_encoders_preserve_order (-1) 0 ltac:(lia))));
      unfold is_int32; simpl; lia.
  - apply (proj2 (proj2 (signed_encoders_preserve_order (-123) 123 ltac:(lia))));
      unfold is_int64; simpl; lia.
Defined.

(** C3 as stated fails: the 4-byte encoding of the int32 [1] compares
    byte-wise above the 8-byte encoding of the int64 [2], although
    [1 < 2]. *)
Theorem int32_int64_cross_width_misordered :
  is_int32 1 /\ is_int64 2 /\ 1 < 2 /\
  encodeInt32 1 = [byte.of_Z 0x80; byte.of_Z 0; byte.of_Z 0; byte.of_Z 1] /\
  encodeInt64 2 =
    [byte.of_Z 0x80; byte.of_Z 0; byte.of_Z 0; byte.of_Z 0;
     byte.of_Z 0; byte.of_Z 0; byte.of_Z 0; byte.of_Z 2] /\
  bytes_compare (encodeInt32 1) (encodeInt64 2) = Gt.
Proof.
  unfold is_int32, is_int64. repeat split; try lia; reflexivity.
Qed.

Lemma bytes_compare_proper_prefix l x r : bytes_compare l (l ++ x :: r) = Lt.
Proof.
  rewrite <- (app_nil_r l) at 1. now rewrite bytes_compare_app.
Qed.

(** The 4-byte key of an int32 against the 8-byte key of an int64: the
    int32 key is compared with the high four bytes of the int64 key, and
    a tie goes to the shorter key. *)
Lemma encodeInt32_encodeInt64_compare a b :
  is_int32 a -> is_int64 b ->
  bytes_compare (encodeInt32 a) (encodeInt64 b) =
  (if a * 2 ^ 32 <=? b then Lt else Gt).
Proof.
  intros Ha Hb.
  rewrite encodeInt32_value, encodeInt64_value by assumption.
  unfold is_int32, is_int64 in *.
  change (PutUint64 (b + 2 ^ 63)) with
    (be_bytes 4 (Z.shiftr (b + 2 ^ 63) 32) ++ be_bytes 4 (b + 2 ^ 63)).
  change (PutUint32 (a + 2 ^ 31)) with (be_bytes 4 (a + 2 ^ 31)).
  rewrite Z.shiftr_div_pow2 by lia.
  change (2 ^ 31) with 2147483648 in *.
  change (2 ^ 32) with 4294967296 in *.
  change (2 ^ 63) with 9223372036854775808 in *.
  set (hi := (b + 9223372036854775808) / 4294967296).
  pose proof (Z.div_mod (b + 9223372036854775808) 4294967296 ltac:(lia)) as D.
  pose proof (Z.mod_pos_bound (b + 9223372036854775808) 4294967296 ltac:(lia)) as M.
  fold hi in D.
  assert (Hhi : 0 <= hi < 4294967296) by lia.
  assert (C : bytes_compare (be_bytes 4 (a + 2147483648)) (be_bytes 4 hi) =
              (a + 2147483648 ?= hi)).
  { rewrite be_bytes_compare. change (2 ^ (8 * Z.of_nat 4)) with 4294967296.
    now rewrite !Z.mod_small by lia. }
  destruct (Z.compare_spec (a + 2147483648) hi) as [Q | L | G].
  - apply bytes_compare_eq in C. rewrite C.
    replace (a * 4294967296 <=? b) with true by (symmetry; apply Z.leb_le; lia).
    apply bytes_compare_proper_prefix.
  - rewrite bytes_compare_app_r_ne;
      [| now rewrite !length_be_bytes | rewrite C; discriminate].
    rewrite C.
    replace (a * 4294967296 <=? b) with true by (symmetry; apply Z.leb_le; lia).
    reflexivity.
  - rewrite bytes_compare_app_r_ne;
      [| now rewrite !length_be_bytes | rewrite C; discriminate].
    rewrite C.
    replace (a * 4294967296 <=? b) with false by (symmetry; apply Z.leb_gt; lia).
    reflexivity.
Qed.

(** C3, amended.  For every int32 [a] and int64 [b], the 4-byte key of
    [a] is byte-wise below the 8-byte key of [b] exactly when
    [a * 2^32 <= b], and above it otherwise; the two keys are never
    equal.  So the byte-wise comparison of the two keys is the numeric
    comparison of [a] and [b] exactly when neither [a * 2^32 <= b <= a]
    nor [a <= b < a * 2^32]. *)
Theorem int32_int64_cross_width_compare (a b : Z)
  (Ha : is_int32 a) (Hb : is_int64 b) :
  (bytes_lt (encodeInt32 a) (encodeInt64 b) <-> a * 2 ^ 32 <= b) /\
  (bytes_lt (encodeInt64 b) (encodeInt32 a) <-> b < a * 2 ^ 32) /\
  encodeInt32 a <> encodeInt64 b /\
  (bytes_compare (encodeInt32 a) (encodeInt64 b) = (a ?= b) <->
   ~ (a * 2 ^ 32 <= b <= a) /\ ~ (a <= b < a * 2 ^ 32)).
Proof.
  pose proof (encodeInt32_encodeInt64_compare a b Ha Hb) as C.
  unfold bytes_lt. rewrite (bytes_compare_antisym (encodeInt32 a) (encodeInt64 b)), C.
  unfold is_int32 in Ha.
  change (2 ^ 31) with 2147483648 in Ha. change (2 ^ 32) with 4294967296 in *.
  split; [| split; [| split]].
  - destruct (Z.leb_spec (a * 4294967296) b); split; intros; (discriminate || lia || auto).
  - destruct (Z.leb_spec (a * 4294967296) b); simpl; split; intros;
      (discriminate || lia || auto).
  - intros E. rewrite E, bytes_compare_refl in C.
    destruct (a * 4294967296 <=? b); discriminate.
  - destruct (Z.leb_spec (a * 4294967296) b); destruct (Z.compare_spec a b);
      split; intros; try discriminate; try reflexivity; lia.
Qed.

Lemma int32_int64_cross_width_compare_witness :
  (bytes_lt (encodeInt32 (-100000)) (encodeInt64 (-1)) <-> -100000 * 2 ^ 32 <= -1) /\
  (bytes_lt (encodeInt64 (-1)) (encodeInt32 (-100000)) <-> -1 < -100000 * 2 ^ 32) /\
  encodeInt32 (-100000) <> encodeInt64 (-1) /\
  (bytes_compare (encodeInt32 (-100000)) (encodeInt64 (-1)) = (-100000 ?= -1) <->
   ~ (-100000 * 2 ^ 32 <= -1 <= -100000) /\ ~ (-100000 <= -1 < -100000 * 2 ^ 32)).
Proof.
  apply (int32_int64_cross_width_compare (-100000) (-1)).
  - unfold is_int32; simpl; lia.
  - unfold is_int64; simpl; lia.
Defined.

(** A positive int32 [a] and an int64 [b] with [a < b < 2^32] always
    compare the wrong way round: the int64 key has four zero bytes where
    the int32 key has its value. *)
Lemma int32_int64_small_positive_misordered a b :
  0 < a < 2 ^ 31 -> 0 <= b < 2 ^ 32 ->
  bytes_compare (encodeInt32 a) (encodeInt64 b) = Gt.
Proof.
  intros Ha Hb.
  assert (P1 : 2 ^ 32 < 2 ^ 63) by reflexivity.
  assert (P2 : 2 ^ 63 = 2 ^ 32 * 2 ^ 31) by reflexivity.
  assert (P3 : 2 ^ 32 = 2 * 2 ^ 31) by reflexivity.
  assert (P4 : 0 < 2 ^ 31) by reflexivity.
  rewrite encodeInt32_value, encodeInt64_value by (unfold is_int32, is_int64; lia).
  change (PutUint64 (b + 2 ^ 63)) with
    (be_bytes 4 (Z.shiftr (b + 2 ^ 63) 32) ++ be_bytes 4 (b + 2 ^ 63)).
  change (PutUint32 (a + 2 ^ 31)) with (be_bytes 4 (a + 2 ^ 31)).
  assert (E : Z.shiftr (b + 2 ^ 63) 32 = 2 ^ 31).
  { rewrite Z.shiftr_div_pow2 by lia.
    symmetry. apply Z.div_unique with (r := b); [left |]; lia. }
  rewrite E.
  assert (G : bytes_compare (be_bytes 4 (a + 2 ^ 31)) (be_bytes 4 (2 ^ 31)) = Gt).
  { rewrite be_bytes_compare. change (8 * Z.of_nat 4) with 32.
    rewrite !Z.mod_small by lia. apply Z.compare_gt_iff. lia. }
  rewrite bytes_compare_app_r_ne; [exact G | now rewrite !length_be_bytes | congruence].
Qed.

(** ** [encodeToBytes] and [NewLexKey]: errors *)

(** [encodeToBytes] fails on the [default] arm only, and then hands back
    a nil slice. *)
Lemma encodeToBytes_error v key err :
  encodeToBytes v = (key, Some err) ->
  key = None /\ exists T, v = AOther T /\ err = unsupported T.
Proof.
  destruct v as [| | | | | | | | | | | | | [|] | | | | | T]; simpl; try discriminate.
  intros H; inversion H; subst. split; [reflexivity |]. now exists T.
Qed.

Lemma encodeToBytes_ok v :
  (forall T, v <> AOther T) -> exists key, encodeToBytes v = (key, None).
Proof.
  intros H.
  destruct v as [| | | | | | | | | | | | | [|] | | | | | T]; simpl; eauto.
  now destruct (H T).
Qed.

Lemma NewLexKey_loop_error n i parts result key err :
  NewLexKey_loop n i parts result = (key, Some err) ->
  key = None /\ exists T, In (AOther T) parts /\ err = unsupported T.
Proof.
  revert i result. induction parts as [| part rest IH]; intros i result; simpl.
  - discriminate.
  - destruct (encodeToBytes part) as [encoded [e |]] eqn:E.
    + intros H; inversion H; subst.
      apply encodeToBytes_error in E as (_ & T & -> & ->).
      split; [reflexivity |]. exists T. auto.
    + intros H. apply IH in H as (-> & T & HT & ->).
      split; [reflexivity |]. exists T. auto.
Qed.

(** The loop stops at the first part of an unsupported kind. *)
Lemma NewLexKey_loop_unsupported n i parts result T :
  In (AOther T) parts ->
  exists T', In (AOther T') parts /\
             NewLexKey_loop n i parts result = (None, Some (unsupported T')).
Proof.
  revert i result. induction parts as [| part rest IH]; intros i result; simpl.
  - contradiction.
  - intros HIn.
    destruct (encodeToBytes part) as [encoded [e |]] eqn:E.
    + apply encodeToBytes_error in E as (_ & T' & -> & ->).
      exists T'. auto.
    + destruct HIn as [-> | HIn]; [simpl in E; discriminate |].
      match goal with
      | |- context [NewLexKey_loop n ?i' rest ?r'] =>
          destruct (IH i' r' HIn) as (T' & HT' & EQ)
      end.
      exists T'. rewrite EQ. auto.
Qed.

(** C9.  [NewLexKey] of zero parts fails with the empty-input error; and
    whenever [NewLexKey] returns an error, the key returned with it is the
    nil slice, the error being the empty-input one (for zero parts) or the
    unsupported-type one of a part of the input. *)
Theorem NewLexKey_error_returns_nil :
  NewLexKey [] = (None, Some "empty keys are not allowed"%string) /\
  forall parts key err,
    NewLexKey parts = (key, Some err) ->
    key = None /\
    ((parts = [] /\ err = "empty keys are not allowed"%string) \/
     (exists T, In (AOther T) parts /\ err = unsupported T)).
Proof.
  split; [reflexivity |].
  intros parts key err. unfold NewLexKey.
  destruct parts as [| part rest].
  - simpl. intros H; inversion H; subst. auto.
  - replace (Z.of_nat (List.length (part :: rest)) =? 0) with false
      by (symmetry; apply Z.eqb_neq; simpl List.length; lia).
    intros H. apply NewLexKey_loop_error in H as (-> & T & HT & ->).
    split; [reflexivity |]. right. now exists T.
Qed.

Lemma NewLexKey_error_returns_nil_witness :
  (None : LexKey) = None /\
  ((([AString (text "a"); AOther "chan int"] = [] /\
     unsupported "chan int" = "empty keys are not allowed"%string) \/
    (exists T, In (AOther T) [AString (text "a"); AOther "chan int"] /\
               unsupported "chan int" = unsupported T))).
Proof.
  apply (proj2 NewLexKey_error_returns_nil
           [AString (text "a"); AOther "chan int"] None (unsupported "chan int")).
  reflexivity.
Defined.

(** C10.  The one-part keys of the absent value [nil] and of the boolean
    [false] are both built without error and are the same single byte
    [0x00], which is also the separator byte. *)
Theorem nil_false_separator_coincide :
  NewLexKey [ANil] = (Some [byte.of_Z 0x00], None) /\
  NewLexKey [ABool false] = (Some [byte.of_Z 0x00], None) /\
  NewLexKey [ANil] = NewLexKey [ABool false] /\
  Seperator = byte.of_Z 0x00.
Proof. repeat split. Qed.

(** ** The supported kinds *)

(** C4 as stated fails: the empty struct is outside the supported set of
    the data model, yet [encodeToBytes] (and so [NewLexKey]) encodes it as
    the byte [0xFF] and returns no error. *)
Lemma empty_struct_is_encoded :
  supported_kind AEmptyStruct = false /\
  encodeToBytes AEmptyStruct = (Some [byte.of_Z 0xFF], None) /\
  NewLexKey [AEmptyStruct] = (Some [byte.of_Z 0xFF], None) /\
  ~ (forall v, supported_kind v = false -> exists err, snd (encodeToBytes v) = Some err).
Proof.
  repeat split.
  intros H. destruct (H AEmptyStruct eq_refl) as [err Herr]. discriminate.
Qed.

(** C4, amended.  A part whose kind is outside the supported set and is
    not the empty struct makes [encodeToBytes] fail with the
    unsupported-type error naming its type, and a [NewLexKey] call holding
    such a part fails with the unsupported-type error of one of its
    parts; the empty struct alone has an encoding outside the supported
    set, the byte [0xFF]. *)
Theorem unsupported_kind_is_rejected (v : any)
  (Hkind : supported_kind v = false) (Hstruct : v <> AEmptyStruct) :
  encodeToBytes v = (None, Some (unsupported (type_name v))) /\
  (forall parts, In v parts ->
     exists v', In v' parts /\ supported_kind v' = false /\ v' <> AEmptyStruct /\
                NewLexKey parts = (None, Some (unsupported (type_name v')))) /\
  encodeToBytes AEmptyStruct = (Some [EndMarker], None).
Proof.
  destruct v; try discriminate; [contradiction |].
  split; [reflexivity |]. split; [| reflexivity].
  intros parts HIn. unfold NewLexKey.
  destruct parts as [| part rest]; [contradiction |].
  replace (Z.of_nat (List.length (part :: rest)) =? 0) with false
    by (symmetry; apply Z.eqb_neq; simpl List.length; lia).
  destruct (NewLexKey_loop_unsupported
              (Z.of_nat (List.length (part :: rest))) 0 (part :: rest) None T HIn)
    as (T' & HT' & ->).
  exists (AOther T'). repeat split; auto. discriminate.
Qed.

Lemma unsupported_kind_is_rejected_witness :
  encodeToBytes (AOther "chan int") = (None, Some (unsupported "chan int")) /\
  (forall parts, In (AOther "chan int") parts ->
     exists v', In v' parts /\ supported_kind v' = false /\ v' <> AEmptyStruct /\
                NewLexKey parts = (None, Some (unsupported (type_name v')))) /\
  encodeToBytes AEmptyStruct = (Some [EndMarker], None).
Proof.
  apply (unsupported_kind_is_rejected (AOther "chan int")).
  - reflexivity.
  - discriminate.
Defined.

(** ** Buffers *)

Lemma make_of_nat n : make (Z.of_nat n) = Returns (repeat (byte.of_Z 0) n).
Proof.
  unfold make.
  replace (Z.of_nat n <? 0) with false by (symmetry; apply Z.ltb_ge; lia).
  now rewrite Nat2Z.id.
Qed.

Lemma overwrite_fits src rest :
  overwrite (src ++ rest) src = src ++ rest.
Proof. induction src as [| s src IH]; simpl; [now destruct rest | now rewrite IH]. Qed.

Lemma overwrite_zeros src k z :
  overwrite (repeat z (List.length src + k)) src = src ++ repeat z k.
Proof.
  induction src as [| s src IH]; simpl; [now destruct (repeat z k) | now rewrite IH].
Qed.

(** Copying [src] to offset [length pre] of a buffer whose tail is zeroed
    and long enough writes [src] there and reports its length. *)
Lemma copy_into_zeros pre src k z (key : LexKey) :
  bytes_of key = src ->
  copy (pre ++ repeat z (List.length src + k)) (Z.of_nat (List.length pre)) key =
  Returns (pre ++ src ++ repeat z k, Z.of_nat (List.length src)).
Proof.
  intros <-. unfold copy, len.
  rewrite length_app, Nat2Z.id.
  replace ((0 <=? Z.of_nat (List.length pre)) &&
           (Z.of_nat (List.length pre) <=?
              Z.of_nat (List.length pre + List.length (repeat z (List.length (bytes_of key) + k)))))
    with true
    by (symmetry; apply andb_true_iff; split; apply Z.leb_le; lia).
  rewrite firstn_app, Nat.sub_diag, firstn_all, app_nil_r.
  rewrite skipn_app, Nat.sub_diag, skipn_all. simpl skipn. simpl app.
  rewrite overwrite_zeros, repeat_length.
  f_equal. f_equal. lia.
Qed.

Lemma copy_into_zeros_front src k z (key : LexKey) :
  bytes_of key = src ->
  copy (repeat z (List.length src + k)) 0 key =
  Returns (src ++ repeat z k, Z.of_nat (List.length src)).
Proof. intros H. exact (copy_into_zeros [] src k z key H). Qed.

Lemma store_at pre x rest b :
  store (pre ++ x :: rest) (Z.of_nat (List.length pre)) b = Returns (pre ++ b :: rest).
Proof.
  unfold store. rewrite length_app. simpl List.length.
  replace ((0 <=? Z.of_nat (List.length pre)) &&
           (Z.of_nat (List.length pre) <?
              Z.of_nat (List.length pre + S (List.length rest))))
    with true
    by (symmetry; apply andb_true_iff; split; [apply Z.leb_le | apply Z.ltb_lt]; lia).
  rewrite Nat2Z.id.
  replace (Z.to_nat (Z.of_nat (List.length pre) + 1)) with (List.length pre + 1)%nat by lia.
  rewrite firstn_app, Nat.sub_diag, firstn_all. simpl firstn. rewrite app_nil_r.
  rewrite skipn_app, skipn_all2 by lia.
  replace (List.length pre + 1 - List.length pre)%nat with 1%nat by lia.
  reflexivity.
Qed.

(** ** [PrimaryKey] *)

(** [PrimaryKey.Encode] never panics and lays out partition bytes, the
    separator, row bytes. *)
Lemma PrimaryKey_Encode_layout pk :
  PrimaryKey_Encode pk =
  Returns (Some (bytes_of (PartitionKey pk) ++ [Seperator] ++ bytes_of (RowKey pk))).
Proof.
  destruct pk as [P R]. unfold PrimaryKey_Encode, len. simpl PartitionKey. simpl RowKey.
  set (p := bytes_of P). set (r := bytes_of R).
  replace (Z.of_nat (List.length p) + Z.of_nat (List.length r) + 1)
    with (Z.of_nat (List.length p + (List.length r + 1))) by lia.
  rewrite make_of_nat. cbn [bind].
  rewrite (copy_into_zeros_front p (List.length r + 1) _ P eq_refl). cbn [bind].
  replace (List.length r + 1)%nat with (S (List.length r)) by lia.
  cbn [repeat]. rewrite store_at. cbn [bind].
  replace (Z.of_nat (List.length p) + 1)
    with (Z.of_nat (List.length (p ++ [Seperator])))
    by (rewrite length_app; simpl List.length; lia).
  replace (p ++ Seperator :: repeat (byte.of_Z 0) (List.length r))
    with ((p ++ [Seperator]) ++ repeat (byte.of_Z 0) (List.length r + 0))
    by (rewrite <- app_assoc, Nat.add_0_r; reflexivity).
  rewrite (copy_into_zeros (p ++ [Seperator]) r 0 _ R eq_refl). cbn [bind fst repeat].
  now rewrite app_nil_r, <- app_assoc.
Qed.

(** With both parts present [NewPrimaryKey] keeps them and logs nothing,
    and [Encode] gives partition, separator, row. *)
Lemma NewPrimaryKey_present p r :
  NewPrimaryKey (Some p) (Some r) = (mkPrimaryKey (Some p) (Some r), []) /\
  PrimaryKey_Encode (fst (NewPrimaryKey (Some p) (Some r))) =
    Returns (Some (p ++ [Seperator] ++ r)).
Proof. split; [reflexivity |]. now rewrite PrimaryKey_Encode_layout. Qed.

(** With a nil part, [NewPrimaryKey] of [primary_key.go] returns the zero
    [PrimaryKey] after logging; its result carries no error. *)
Lemma NewPrimaryKey_nil partitionKey rowKey :
  partitionKey = None \/ rowKey = None ->
  NewPrimaryKey partitionKey rowKey =
    (PrimaryKey_zero, ["partitionKey and rowKey cannot be nil"%string]).
Proof. intros [-> | ->]; [| destruct partitionKey]; reflexivity. Qed.

(** The single-file variant does return the error. *)
Lemma SingleFile_NewPrimaryKey_nil partitionKey rowKey :
  partitionKey = None \/ rowKey = None ->
  SingleFile.NewPrimaryKey partitionKey rowKey =
    (PrimaryKey_zero, Some "partitionKey and rowKey cannot be nil"%string).
Proof. intros [-> | ->]; [| destruct partitionKey]; reflexivity. Qed.

Lemma SingleFile_NewPrimaryKey_present p r :
  SingleFile.NewPrimaryKey (Some p) (Some r) = (mkPrimaryKey (Some p) (Some r), None).
Proof. reflexivity. Qed.

(** C5.  [NewPrimaryKey] of [primary_key.go], called with a nil partition
    and the row ["row"], returns no error: its whole result is the zero
    [PrimaryKey] (the message only goes to the log), nothing in it tells
    that result from a successful one, and encoding it gives the lone
    separator byte.  With both parts present the call succeeds and
    [Encode] gives partition, separator, row. *)
Theorem NewPrimaryKey_nil_part_returns_no_error :
  NewPrimaryKey None (Some (text "row")) =
    (PrimaryKey_zero, ["partitionKey and rowKey cannot be nil"%string]) /\
  fst (NewPrimaryKey None (Some (text "row"))) = fst (NewPrimaryKey None None) /\
  PrimaryKey_Encode (fst (NewPrimaryKey None (Some (text "row")))) =
    Returns (Some [Seperator]) /\
  PrimaryKey_Encode (fst (NewPrimaryKey (Some (text "partition")) (Some (text "row")))) =
    Returns (Some (text "partition" ++ [Seperator] ++ text "row")).
Proof. repeat split. Qed.

(** ** [RangeKey] *)

Lemma store_last pre x b :
  store (pre ++ [x]) (Z.of_nat (List.length (pre ++ [x])) - 1) b = Returns (pre ++ [b]).
Proof.
  replace (Z.of_nat (List.length (pre ++ [x])) - 1) with (Z.of_nat (List.length pre))
    by (rewrite length_app; simpl List.length; lia).
  apply store_at.
Qed.

(** The second half of [encodeBoundary]: what is written after the
    partition prefix [p], into a buffer zeroed behind it. *)
Lemma encodeBoundary_row_stage (p : list byte) (rowKey : LexKey) x r (isUpper : bool) :
  bytes_of rowKey = x :: r ->
  (result <- store (p ++ repeat (byte.of_Z 0)
                            (1 + List.length (x :: r) + (if isUpper then 1 else 0)))
                   (Z.of_nat (List.length p)) Seperator ;;
   r0 <- copy result (Z.of_nat (List.length p) + 1) rowKey ;;
   if isUpper
   then result <- store (fst r0) (Z.of_nat (List.length (fst r0)) - 1) EndMarker ;;
        Returns (Some result)
   else Returns (Some (fst r0))) =
  Returns (Some (p ++ [Seperator] ++ (x :: r) ++ (if isUpper then [EndMarker] else []))).
Proof.
  intros Hrow. set (row := x :: r) in *.
  replace (1 + List.length row + (if isUpper then 1 else 0))%nat
    with (S (List.length row + (if isUpper then 1 else 0))) by lia.
  cbn [repeat]. rewrite store_at. cbn [bind].
  replace (Z.of_nat (List.length p) + 1)
    with (Z.of_nat (List.length (p ++ [Seperator])))
    by (rewrite length_app; simpl List.length; lia).
  replace (p ++ Seperator :: repeat (byte.of_Z 0) (List.length row + (if isUpper then 1 else 0)))
    with ((p ++ [Seperator]) ++
          repeat (byte.of_Z 0) (List.length row + (if isUpper then 1 else 0)))
    by (rewrite <- app_assoc; reflexivity).
  rewrite (copy_into_zeros (p ++ [Seperator]) row _ _ rowKey Hrow). cbn [bind fst].
  destruct isUpper; cbn [repeat].
  - replace ((p ++ [Seperator]) ++ row ++ [byte.of_Z 0])
      with (((p ++ [Seperator]) ++ row) ++ [byte.of_Z 0])
      by (now rewrite <- !app_assoc).
    rewrite store_last. cbn [bind]. now rewrite <- !app_assoc.
  - now rewrite app_nil_r, <- app_assoc.
Qed.

(** [encodeBoundary] never panics, and its result is: the partition bytes
    when they are asked for; then, for an empty or nil row key, the end
    marker (upper bound) or the separator (lower bound) alone; for any
    other row key the separator, the row bytes and, for the upper bound,
    the end marker. *)
Lemma encodeBoundary_layout partitionKey rowKey isUpper withPartitionKey :
  encodeBoundary partitionKey rowKey isUpper withPartitionKey =
  Returns (Some
    ((if withPartitionKey then bytes_of partitionKey else []) ++
     match bytes_of rowKey with
     | [] => [ternary isUpper EndMarker Seperator]
     | _ :: _ => [Seperator] ++ bytes_of rowKey ++ (if isUpper then [EndMarker] else [])
     end)).
Proof.
  unfold encodeBoundary, len.
  set (p := bytes_of partitionKey).
  destruct (bytes_of rowKey) as [| x r] eqn:Hrow.
  - simpl List.length. change (Z.of_nat 0) with 0.
    change (0 >? 0) with false. change (0 =? 0) with true. cbv iota.
    destruct withPartitionKey.
    + replace (Z.of_nat (List.length p) + 1) with (Z.of_nat (List.length p + 1)) by lia.
      rewrite make_of_nat. cbn [bind].
      rewrite (copy_into_zeros_front p 1 _ partitionKey eq_refl). cbn [bind fst snd repeat].
      rewrite Z.add_0_l, store_at. reflexivity.
    + reflexivity.
  - set (row := x :: r) in *.
    replace (Z.of_nat (List.length row) >? 0) with true
      by (symmetry; apply Z.gtb_lt; subst row; simpl List.length; lia).
    replace (Z.of_nat (List.length row) =? 0) with false
      by (symmetry; apply Z.eqb_neq; subst row; simpl List.length; lia).
    pose proof (encodeBoundary_row_stage
                  (if withPartitionKey then p else []) rowKey x r isUpper Hrow) as Stage.
    fold row in Stage.
    destruct withPartitionKey.
    + match goal with
      | |- bind (make ?size) _ = _ =>
          replace size
            with (Z.of_nat (List.length p +
                    (1 + List.length row + (if isUpper then 1 else 0))))
            by (destruct isUpper; lia)
      end.
      rewrite make_of_nat. cbn [bind].
      rewrite (copy_into_zeros_front p _ _ partitionKey eq_refl). cbn [bind fst snd].
      rewrite Z.add_0_l. exact Stage.
    + match goal with
      | |- bind (make ?size) _ = _ =>
          replace size
            with (Z.of_nat (1 + List.length row + (if isUpper then 1 else 0)))
            by (destruct isUpper; lia)
      end.
      rewrite make_of_nat. cbn [bind]. exact Stage.
Qed.

Lemma RangeKey_Encode_layout rk withPartitionKey :
  RangeKey_Encode rk withPartitionKey =
  Returns
    (Some ((if withPartitionKey then bytes_of (rkPartitionKey rk) else []) ++
           match bytes_of (StartRowKey rk) with
           | [] => [Seperator]
           | _ :: _ => [Seperator] ++ bytes_of (StartRowKey rk)
           end),
     Some ((if withPartitionKey then bytes_of (rkPartitionKey rk) else []) ++
           match bytes_of (EndRowKey rk) with
           | [] => [EndMarker]
           | _ :: _ => [Seperator] ++ bytes_of (EndRowKey rk) ++ [EndMarker]
           end)).
Proof.
  unfold RangeKey_Encode. rewrite !encodeBoundary_layout. cbn [bind ternary].
  destruct (bytes_of (StartRowKey rk)); [reflexivity |].
  now rewrite app_nil_r.
Qed.

(** C8.  With partition ["part"], start row ["start"], end row ["end"] and
    the partition included, [RangeKey.Encode] returns the lower bound
    ["part" 00 "start"] and the upper bound ["part" 00 "end" FF]; with
    partition ["partition"] and both rows absent it returns
    ["partition" 00] and ["partition" FF], no separator before the end
    marker. *)
Theorem RangeKey_Encode_examples :
  RangeKey_Encode
    (NewRangeKey (Some (text "part")) (Some (text "start")) (Some (text "end"))) true =
    Returns (Some (text "part" ++ [byte.of_Z 0x00] ++ text "start"),
             Some (text "part" ++ [byte.of_Z 0x00] ++ text "end" ++ [byte.of_Z 0xFF])) /\
  RangeKey_Encode (NewRangeKey (Some (text "partition")) None None) true =
    Returns (Some (text "partition" ++ [byte.of_Z 0x00]),
             Some (text "partition" ++ [byte.of_Z 0xFF])).
Proof. split; reflexivity. Qed.

(** *** The scan interval *)

Lemma EndMarker_is_max c : byte.unsigned c <= byte.unsigned EndMarker.
Proof.
  pose proof (byte.unsigned_range c) as H.
  change (byte.unsigned EndMarker) with 255. change (2 ^ 8) with 256 in H. lia.
Qed.

Lemma below_EndMarker c : byte.unsigned c < byte.unsigned EndMarker <-> c <> EndMarker.
Proof.
  pose proof (EndMarker_is_max c) as H. split.
  - intros L ->. lia.
  - intros N. destruct (Z.eq_dec (byte.unsigned c) (byte.unsigned EndMarker)) as [E |]; [| lia].
    apply byte.unsigned_inj in E. contradiction.
Qed.

(** What lies below [E ++ [EndMarker]]: everything up to [E], and every
    proper extension of [E] whose next byte is not the end marker. *)
Lemma below_end_marker E R :
  bytes_lt R (E ++ [EndMarker]) <->
  bytes_le R E \/ exists c rest, R = E ++ c :: rest /\ c <> EndMarker.
Proof.
  unfold bytes_lt, bytes_le. revert R.
  induction E as [| e E IH]; intros [| r R]; simpl.
  - split; [left; discriminate | reflexivity].
  - destruct (Z.compare_spec (byte.unsigned r) (byte.unsigned EndMarker)) as [Q | L | G].
    + apply byte.unsigned_inj in Q. subst r. split.
      * destruct R; discriminate.
      * intros [N | (c & rest & H & N)]; [now destruct N |].
        inversion H; subst. contradiction.
    + split; [| reflexivity]. intros _. right. exists r, R. split; [reflexivity |].
      now apply below_EndMarker.
    + pose proof (EndMarker_is_max r). lia.
  - split; [left; discriminate | reflexivity].
  - destruct (Z.compare_spec (byte.unsigned r) (byte.unsigned e)) as [Q | L | G].
    + apply byte.unsigned_inj in Q. subst r. rewrite IH. split.
      * intros [H | (c & rest & -> & N)]; [now left | right; now exists c, rest].
      * intros [H | (c & rest & H & N)]; [now left |].
        inversion H; subst. right. now exists c, rest.
    + split; [left; discriminate | reflexivity].
    + split; [discriminate |].
      intros [N | (c & rest & H & N)]; [now destruct N |].
      inversion H; subst. lia.
Qed.

(** C6 as stated fails: for partition ["p"] and rows ["a"] to ["b"], the
    stored key ["p" 00 "b" 01] lies in the half-open interval
    [[lower, upper)] that [RangeKey.Encode] returns, although its row
    ["b" 01] is above the end row ["b"]. *)
Lemma range_scan_admits_rows_extending_end :
  RangeKey_Encode (NewRangeKey (Some (text "p")) (Some (text "a")) (Some (text "b"))) true =
    Returns (Some (text "p" ++ [Seperator] ++ text "a"),
             Some (text "p" ++ [Seperator] ++ text "b" ++ [EndMarker])) /\
  bytes_le (text "p" ++ [Seperator] ++ text "a")
           (text "p" ++ [Seperator] ++ (text "b" ++ [byte.of_Z 1])) /\
  bytes_lt (text "p" ++ [Seperator] ++ (text "b" ++ [byte.of_Z 1]))
           (text "p" ++ [Seperator] ++ text "b" ++ [EndMarker]) /\
  bytes_le (text "a") (text "b" ++ [byte.of_Z 1]) /\
  ~ bytes_le (text "b" ++ [byte.of_Z 1]) (text "b").
Proof.
  repeat split; try discriminate.
  intros H. now apply H.
Qed.

(** C6, amended.  For every partition [P], non-empty start row [S] and end
    row [E], with the partition included, [RangeKey.Encode] returns
    [lower = P 00 S] and [upper = P 00 E FF], and a stored key [P 00 R]
    lies in [[lower, upper)] if and only if [S <= R] and either [R <= E]
    or [R] is [E] followed by at least one more byte, the first of which
    is not [0xFF]. *)
Theorem range_scan_interval (P : LexKey) (S E R : list byte)
  (HS : S <> []) (HE : E <> []) :
  exists lower upper,
    RangeKey_Encode (NewRangeKey P (Some S) (Some E)) true =
      Returns (Some lower, Some upper) /\
    lower = bytes_of P ++ [Seperator] ++ S /\
    upper = bytes_of P ++ [Seperator] ++ E ++ [EndMarker] /\
    ((bytes_le lower (bytes_of P ++ [Seperator] ++ R) /\
      bytes_lt (bytes_of P ++ [Seperator] ++ R) upper) <->
     (bytes_le S R /\
      (bytes_le R E \/ exists c rest, R = E ++ c :: rest /\ c <> EndMarker))).
Proof.
  exists (bytes_of P ++ [Seperator] ++ S), (bytes_of P ++ [Seperator] ++ E ++ [EndMarker]).
  split; [| split; [reflexivity | split; [reflexivity |]]].
  - rewrite RangeKey_Encode_layout. simpl.
    destruct S; [contradiction |]. destruct E; [contradiction |]. reflexivity.
  - unfold bytes_le at 1, bytes_lt.
    rewrite !bytes_compare_app.
    change (bytes_compare R (E ++ [EndMarker]) = Lt) with (bytes_lt R (E ++ [EndMarker])).
    rewrite below_end_marker. reflexivity.
Qed.

Lemma range_scan_interval_witness :
  exists lower upper,
    RangeKey_Encode (NewRangeKey (Some (text "p")) (Some (text "a")) (Some (text "b"))) true =
      Returns (Some lower, Some upper) /\
    lower = text "p" ++ [Seperator] ++ text "a" /\
    upper = text "p" ++ [Seperator] ++ text "b" ++ [EndMarker] /\
    ((bytes_le lower (text "p" ++ [Seperator] ++ text "ab") /\
      bytes_lt (text "p" ++ [Seperator] ++ text "ab") upper) <->
     (bytes_le (text "a") (text "ab") /\
      (bytes_le (text "ab") (text "b") \/
       exists c rest, text "ab" = text "b" ++ c :: rest /\ c <> EndMarker))).
Proof.
  apply (range_scan_interval (Some (text "p")) (text "a") (text "b") (text "ab"));
    discriminate.
Defined.

(** ** Floats *)

(** *** Reading a bit pattern *)

Section Fields.
Variables mw ew : Z.
Hypothesis Hmw : 0 < mw.
Hypothesis Hew : 1 < ew.

Lemma mantissa_range_pos : 0 < 2 ^ mw.
Proof. apply Z.pow_pos_nonneg; lia. Qed.

Lemma decode_float_fields bits :
  decode_float mw ew bits =
  decode_fields mw ew (Z.testbit bits (mw + ew))
                ((Z.shiftr bits mw) mod 2 ^ ew) (bits mod 2 ^ mw).
Proof. reflexivity. Qed.

Ltac zcmp :=
  repeat match goal with
         | |- context [Z.compare ?a ?b] => destruct (Z.compare_spec a b)
         end;
  simpl; try reflexivity; exfalso; nia.

Lemma SFcompare_fields s1 e1 m1 s2 e2 m2 :
  0 <= m1 < 2 ^ mw -> 0 <= e1 < 2 ^ ew -> 0 <= m2 < 2 ^ mw -> 0 <= e2 < 2 ^ ew ->
  fields_nan ew e1 m1 = false -> fields_nan ew e2 m2 = false ->
  SFcompare (decode_fields mw ew s1 e1 m1) (decode_fields mw ew s2 e2 m2) =
  Some (signed s1 (e1 * 2 ^ mw + m1) ?= signed s2 (e2 * 2 ^ mw + m2)).
Proof.
  intros Hm1 He1 Hm2 He2 N1 N2.
  pose proof mantissa_range_pos as HM.
  unfold fields_nan, decode_fields in *.
  set (M := 2 ^ mw) in *. set (X := 2 ^ ew) in *.
  destruct (Z.eqb_spec e1 0) as [Z1 | NZ1];
    [| destruct (Z.eqb_spec e1 (X - 1)) as [I1 | NI1];
       [ destruct (Z.eqb_spec m1 0) as [Mz1 | ]; [| discriminate ] | ] ];
  (destruct (Z.eqb_spec e2 0) as [Z2 | NZ2];
    [| destruct (Z.eqb_spec e2 (X - 1)) as [I2 | NI2];
       [ destruct (Z.eqb_spec m2 0) as [Mz2 | ]; [| discriminate ] | ] ]);
  clear N1 N2.
  all: destruct (m1 + M) as [| q1 | q1] eqn:Eq1; try lia.
  all: destruct (m2 + M) as [| q2 | q2] eqn:Eq2; try lia.
  all: destruct m1 as [| p1 | p1]; try lia.
  all: destruct m2 as [| p2 | p2]; try lia.
  all: destruct s1, s2; cbn [SFcompare signed]; f_equal.
  all: repeat match goal with
         | |- context [Pos.compare_cont Eq ?p ?q] =>
             change (Pos.compare_cont Eq p q) with (Z.pos p ?= Z.pos q)
         end.
  all: solve [zcmp].
Qed.

Lemma decode_fields_nan s e m :
  fields_nan ew e m = true -> decode_fields mw ew s e m = S754_nan.
Proof.
  unfold fields_nan, decode_fields. intros H.
  apply andb_true_iff in H as [He Hm].
  apply Z.eqb_eq in He. apply negb_true_iff in Hm.
  destruct (Z.eqb_spec e 0) as [Z0 | NZ].
  - exfalso. assert (1 < 2 ^ ew) by (apply Z.pow_gt_1; lia). lia.
  - rewrite (proj2 (Z.eqb_eq _ _) He), Hm. reflexivity.
Qed.

Lemma IsNaN_fields s e m :
  0 <= m < 2 ^ mw -> 0 <= e < 2 ^ ew ->
  IsNaN (decode_fields mw ew s e m) = fields_nan ew e m.
Proof.
  intros Hm He. destruct (fields_nan ew e m) eqn:N.
  - now rewrite decode_fields_nan.
  - unfold IsNaN, SFeqb.
    rewrite SFcompare_fields by assumption.
    now rewrite Z.compare_refl.
Qed.

(** The fields of a bit pattern of [mw + ew + 1] bits. *)
Lemma fields_of_bits bits :
  0 <= bits < 2 ^ (mw + ew + 1) ->
  let s := Z.testbit bits (mw + ew) in
  let e := (Z.shiftr bits mw) mod 2 ^ ew in
  let m := bits mod 2 ^ mw in
  0 <= m < 2 ^ mw /\ 0 <= e < 2 ^ ew /\
  signed s (e * 2 ^ mw + m) = sign_magnitude (mw + ew) bits.
Proof.
  intros Hb s e m.
  pose proof mantissa_range_pos as HM.
  assert (HX : 0 < 2 ^ ew) by (apply Z.pow_pos_nonneg; lia).
  assert (HW : 2 ^ (mw + ew) = 2 ^ mw * 2 ^ ew) by (apply Z.pow_add_r; lia).
  assert (HW1 : 2 ^ (mw + ew + 1) = 2 * 2 ^ (mw + ew))
    by (rewrite (Z.pow_add_r 2 (mw + ew) 1) by lia; lia).
  split; [apply Z.mod_pos_bound; lia |].
  split; [apply Z.mod_pos_bound; lia |].
  assert (Hx : e * 2 ^ mw + m = bits mod 2 ^ (mw + ew)).
  { subst e m. rewrite HW, Z.rem_mul_r, Z.shiftr_div_pow2 by lia. lia. }
  rewrite Hx. unfold sign_magnitude, signed. subst s.
  destruct (Z.ltb_spec bits (2 ^ (mw + ew))) as [Lo | Hi].
  - replace (Z.testbit bits (mw + ew)) with false.
    + apply Z.mod_small. lia.
    + symmetry. rewrite <- (Z.mod_small bits (2 ^ (mw + ew))) by lia.
      apply Z.mod_pow2_bits_high. lia.
  - replace (Z.testbit bits (mw + ew)) with true.
    + f_equal. symmetry. apply Z.mod_unique with (q := 1); lia.
    + symmetry. apply Z.testbit_true; [lia |].
      replace (bits / 2 ^ (mw + ew)) with 1; [reflexivity |].
      apply Z.div_unique with (r := bits - 2 ^ (mw + ew)); lia.
Qed.

Lemma IsNaN_bits bits :
  0 <= bits < 2 ^ (mw + ew + 1) ->
  IsNaN (decode_float mw ew bits) =
  ((2 ^ ew - 1) * 2 ^ mw <? Z.abs (sign_magnitude (mw + ew) bits)).
Proof.
  intros Hb. destruct (fields_of_bits bits Hb) as (Hm & He & Hs).
  rewrite decode_float_fields, IsNaN_fields by assumption.
  rewrite <- Hs. unfold fields_nan.
  set (e := Z.shiftr bits mw mod 2 ^ ew) in *. set (m := bits mod 2 ^ mw) in *.
  replace (Z.abs (signed (Z.testbit bits (mw + ew)) (e * 2 ^ mw + m)))
    with (e * 2 ^ mw + m)
    by (unfold signed; destruct (Z.testbit bits (mw + ew)); nia).
  destruct (Z.eqb_spec e (2 ^ ew - 1)) as [-> | Ne];
    destruct (Z.eqb_spec m 0) as [-> | Nm]; simpl; symmetry.
  - apply Z.ltb_ge. lia.
  - apply Z.ltb_lt. lia.
  - apply Z.ltb_ge. nia.
  - apply Z.ltb_ge. nia.
Qed.

Lemma SFcompare_bits a b :
  0 <= a < 2 ^ (mw + ew + 1) -> 0 <= b < 2 ^ (mw + ew + 1) ->
  IsNaN (decode_float mw ew a) = false -> IsNaN (decode_float mw ew b) = false ->
  SFcompare (decode_float mw ew a) (decode_float mw ew b) =
  Some (sign_magnitude (mw + ew) a ?= sign_magnitude (mw + ew) b).
Proof.
  intros Ha Hb.
  destruct (fields_of_bits a Ha) as (Hma & Hea & <-).
  destruct (fields_of_bits b Hb) as (Hmb & Heb & <-).
  rewrite !decode_float_fields, !IsNaN_fields by assumption.
  intros Na Nb. now apply SFcompare_fields.
Qed.
End Fields.

(** *** binary64 *)

Lemma float64_IsNaN v :
  is_uint64 v ->
  IsNaN (float64_val v) = (0x7FF0000000000000 <? Z.abs (sign_magnitude 63 v)).
Proof. intros H. exact (IsNaN_bits 52 11 ltac:(lia) ltac:(lia) v H). Qed.

Lemma float64_compare a b :
  is_uint64 a -> is_uint64 b ->
  IsNaN (float64_val a) = false -> IsNaN (float64_val b) = false ->
  SFcompare (float64_val a) (float64_val b) =
  Some (sign_magnitude 63 a ?= sign_magnitude 63 b).
Proof. intros Ha Hb. exact (SFcompare_bits 52 11 ltac:(lia) ltac:(lia) a b Ha Hb). Qed.

Lemma float64_lt0 v :
  is_uint64 v -> IsNaN (float64_val v) = false ->
  float_lt0 (float64_val v) = (sign_magnitude 63 v <? 0).
Proof.
  intros Hv Nv. unfold float_lt0, SFltb.
  change (S754_zero false) with (float64_val 0).
  rewrite float64_compare; [| assumption | unfold is_uint64; simpl; lia | assumption | reflexivity].
  change (sign_magnitude 63 0) with 0. unfold Z.ltb.
  now destruct (sign_magnitude 63 v ?= 0).
Qed.

Lemma sign_magnitude_range w v :
  0 <= v < 2 * 2 ^ w -> - 2 ^ w < sign_magnitude w v < 2 ^ w.
Proof. unfold sign_magnitude. destruct (Z.ltb_spec v (2 ^ w)); lia. Qed.

(** The number [encodeFloat64] writes for a value that is neither a NaN
    nor negative zero: its sign-and-magnitude reading moved up by [2^63],
    the negative ones one step lower. *)
Lemma encodeFloat64_bits v :
  is_uint64 v -> IsNaN (float64_val v) = false -> v <> negzero64 ->
  encodeFloat64 v =
  PutUint64 (if sign_magnitude 63 v <? 0
             then sign_magnitude 63 v + 2 ^ 63 - 1
             else sign_magnitude 63 v + 2 ^ 63).
Proof.
  intros Hv Nv Zv. unfold encodeFloat64, Float64bits.
  rewrite Nv, float64_lt0 by assumption.
  unfold is_uint64, negzero64 in *.
  change 0x8000000000000000 with (2 ^ 63) in Zv.
  assert (P : 2 ^ 64 = 2 * 2 ^ 63) by reflexivity.
  f_equal. unfold sign_magnitude.
  destruct (Z.ltb_spec v (2 ^ 63)) as [Lo | Hi].
  - replace (v <? 0) with false by (symmetry; apply Z.ltb_ge; lia).
    change (Z.shiftl 1 63) with (2 ^ 63). apply lxor_pow2_set; lia.
  - replace (- (v - 2 ^ 63) <? 0) with true by (symmetry; apply Z.ltb_lt; lia).
    rewrite lxor_ones by lia. lia.
Qed.

Lemma encodeFloat64_compare a b :
  is_uint64 a -> is_uint64 b ->
  IsNaN (float64_val a) = false -> IsNaN (float64_val b) = false ->
  a <> negzero64 -> b <> negzero64 ->
  SFcompare (float64_val a) (float64_val b) =
  Some (bytes_compare (encodeFloat64 a) (encodeFloat64 b)).
Proof.
  intros Ha Hb Na Nb Za Zb.
  rewrite float64_compare, !encodeFloat64_bits by assumption.
  assert (P : 2 ^ 64 = 2 * 2 ^ 63) by reflexivity.
  unfold is_uint64 in *.
  pose proof (sign_magnitude_range 63 a ltac:(lia)) as Ra.
  pose proof (sign_magnitude_range 63 b ltac:(lia)) as Rb.
  f_equal.
  rewrite PutUint64_compare.
  - destruct (Z.ltb_spec (sign_magnitude 63 a) 0), (Z.ltb_spec (sign_magnitude 63 b) 0);
      destruct (Z.compare_spec (sign_magnitude 63 a) (sign_magnitude 63 b));
      symmetry;
      solve [apply Z.compare_eq_iff; lia | apply Z.compare_lt_iff; lia
            | apply Z.compare_gt_iff; lia].
  - unfold is_uint64. destruct (sign_magnitude 63 a <? 0); lia.
  - unfold is_uint64. destruct (sign_magnitude 63 b <? 0); lia.
Qed.

(** X3.  Away from NaN and negative zero [encodeFloat64] keeps the order
    of the float64 values in both directions: [a < b] numerically exactly
    when the key of [a] is byte-wise below the key of [b]. *)
Lemma encodeFloat64_preserves_order a b :
  is_uint64 a -> is_uint64 b ->
  IsNaN (float64_val a) = false -> IsNaN (float64_val b) = false ->
  a <> negzero64 -> b <> negzero64 ->
  (float64_lt a b = true <-> bytes_lt (encodeFloat64 a) (encodeFloat64 b)).
Proof.
  intros Ha Hb Na Nb Za Zb. unfold float64_lt, SFltb, bytes_lt.
  rewrite encodeFloat64_compare by assumption.
  destruct (bytes_compare (encodeFloat64 a) (encodeFloat64 b)); split; congruence.
Qed.

(** *** binary32 *)

Lemma float32_IsNaN v :
  is_uint32 v ->
  IsNaN (float32_val v) = (0x7F800000 <? Z.abs (sign_magnitude 31 v)).
Proof. intros H. exact (IsNaN_bits 23 8 ltac:(lia) ltac:(lia) v H). Qed.

Lemma float32_compare a b :
  is_uint32 a -> is_uint32 b ->
  IsNaN (float32_val a) = false -> IsNaN (float32_val b) = false ->
  SFcompare (float32_val a) (float32_val b) =
  Some (sign_magnitude 31 a ?= sign_magnitude 31 b).
Proof. intros Ha Hb. exact (SFcompare_bits 23 8 ltac:(lia) ltac:(lia) a b Ha Hb). Qed.

Lemma float32_lt0 v :
  is_uint32 v -> IsNaN (float32_val v) = false ->
  float_lt0 (float32_val v) = (sign_magnitude 31 v <? 0).
Proof.
  intros Hv Nv. unfold float_lt0, SFltb.
  change (S754_zero false) with (float32_val 0).
  rewrite float32_compare; [| assumption | unfold is_uint32; simpl; lia | assumption | reflexivity].
  change (sign_magnitude 31 0) with 0. unfold Z.ltb.
  now destruct (sign_magnitude 31 v ?= 0).
Qed.

Lemma encodeFloat32_bits v :
  is_uint32 v -> IsNaN (float32_val v) = false -> v <> negzero32 ->
  encodeFloat32 v =
  PutUint32 (if sign_magnitude 31 v <? 0
             then sign_magnitude 31 v + 2 ^ 31 - 1
             else sign_magnitude 31 v + 2 ^ 31).
Proof.
  intros Hv Nv Zv. unfold encodeFloat32, Float32bits.
  rewrite Nv, float32_lt0 by assumption.
  unfold is_uint32, negzero32 in *.
  change 0x80000000 with (2 ^ 31) in Zv.
  assert (P : 2 ^ 32 = 2 * 2 ^ 31) by reflexivity.
  f_equal. unfold sign_magnitude.
  destruct (Z.ltb_spec v (2 ^ 31)) as [Lo | Hi].
  - replace (v <? 0) with false by (symmetry; apply Z.ltb_ge; lia).
    change (Z.shiftl 1 31) with (2 ^ 31). apply lxor_pow2_set; lia.
  - replace (- (v - 2 ^ 31) <? 0) with true by (symmetry; apply Z.ltb_lt; lia).
    rewrite lxor_ones by lia. lia.
Qed.

Lemma encodeFloat32_compare a b :
  is_uint32 a -> is_uint32 b ->
  IsNaN (float32_val a) = false -> IsNaN (float32_val b) = false ->
  a <> negzero32 -> b <> negzero32 ->
  SFcompare (float32_val a) (float32_val b) =
  Some (bytes_compare (encodeFloat32 a) (encodeFloat32 b)).
Proof.
  intros Ha Hb Na Nb Za Zb.
  rewrite float32_compare, !encodeFloat32_bits by assumption.
  assert (P : 2 ^ 32 = 2 * 2 ^ 31) by reflexivity.
  unfold is_uint32 in *.
  pose proof (sign_magnitude_range 31 a ltac:(lia)) as Ra.
  pose proof (sign_magnitude_range 31 b ltac:(lia)) as Rb.
  f_equal.
  rewrite PutUint32_compare.
  - destruct (Z.ltb_spec (sign_magnitude 31 a) 0), (Z.ltb_spec (sign_magnitude 31 b) 0);
      destruct (Z.compare_spec (sign_magnitude 31 a) (sign_magnitude 31 b));
      symmetry;
      solve [apply Z.compare_eq_iff; lia | apply Z.compare_lt_iff; lia
            | apply Z.compare_gt_iff; lia].
  - unfold is_uint32. destruct (sign_magnitude 31 a <? 0); lia.
  - unfold is_uint32. destruct (sign_magnitude 31 b <? 0); lia.
Qed.

(** Negative zero is written as the all-zero key, below the key of every
    other non-NaN value, the negative ones and minus infinity included. *)
Lemma encodeFloat64_negzero_lowest v :
  is_uint64 v -> IsNaN (float64_val v) = false -> v <> negzero64 ->
  encodeFloat64 negzero64 = PutUint64 0 /\
  bytes_lt (encodeFloat64 negzero64) (encodeFloat64 v).
Proof.
  intros Hv Nv Zv. split; [reflexivity |].
  change (encodeFloat64 negzero64) with (PutUint64 0).
  rewrite encodeFloat64_bits by assumption.
  rewrite float64_IsNaN in Nv by assumption. apply Z.ltb_ge in Nv.
  unfold is_uint64 in Hv.
  assert (P : 2 ^ 64 = 2 * 2 ^ 63) by reflexivity.
  assert (Q : 2 ^ 63 = 9223372036854775808) by reflexivity.
  pose proof (sign_magnitude_range 63 v ltac:(lia)) as R.
  unfold bytes_lt. rewrite PutUint64_compare.
  - apply Z.compare_lt_iff. destruct (sign_magnitude 63 v <? 0); lia.
  - unfold is_uint64. lia.
  - unfold is_uint64. destruct (sign_magnitude 63 v <? 0); lia.
Qed.

(** C1.  At the non-NaN inputs [a = -1.0] (and [a = -Inf]) and [b = -0.0],
    [a < b] holds numerically but [encodeFloat64 a] is byte-wise above
    [encodeFloat64 b]: negative zero fails the test [v < 0], has only its
    sign bit flipped and is written as eight zero bytes.  And the two
    zeros, numerically equal, get different keys. *)
Theorem encodeFloat64_negative_zero_misordered :
  float64_val 0xBFF0000000000000 = S754_finite true 4503599627370496 (-52) /\
  float64_val 0xFFF0000000000000 = S754_infinity true /\
  float64_val negzero64 = S754_zero true /\
  float64_lt 0xBFF0000000000000 negzero64 = true /\
  bytes_compare (encodeFloat64 0xBFF0000000000000) (encodeFloat64 negzero64) = Gt /\
  float64_lt 0xFFF0000000000000 negzero64 = true /\
  bytes_compare (encodeFloat64 0xFFF0000000000000) (encodeFloat64 negzero64) = Gt /\
  encodeFloat64 negzero64 = PutUint64 0 /\
  float64_lt negzero64 0 = false /\
  bytes_compare (encodeFloat64 negzero64) (encodeFloat64 0) = Lt.
Proof. repeat split. Qed.

(** C2 as stated fails: the canonical NaN key is byte-wise below the keys
    of plus infinity, of [1.0] and of [+0.0] (and likewise for float32). *)
Lemma canonical_nan_sorts_below_nonnegative_values :
  IsNaN (float64_val 0x7FF8000000000000) = true /\
  IsNaN (float64_val 0x7FF0000000000000) = false /\
  float64_val 0x7FF0000000000000 = S754_infinity false /\
  bytes_compare (encodeFloat64 0x7FF8000000000000) (encodeFloat64 0x7FF0000000000000) = Lt /\
  bytes_compare (encodeFloat64 0x7FF8000000000000) (encodeFloat64 0x3FF0000000000000) = Lt /\
  bytes_compare (encodeFloat64 0x7FF8000000000000) (encodeFloat64 0) = Lt /\
  IsNaN (float32_val 0x7FC00000) = true /\
  IsNaN (float32_val 0x7F800000) = false /\
  float32_val 0x7F800000 = S754_infinity false /\
  bytes_compare (encodeFloat32 0x7FC00000) (encodeFloat32 0x7F800000) = Lt.
Proof. repeat split. Qed.

(** C2, amended.  Every NaN float64 is encoded as [0x7FF8000000000001]
    and every NaN float32 as [0x7FC00001].  For a non-NaN value [v] other
    than negative zero, the canonical NaN key is byte-wise above the key
    of [v] exactly when [v] is negative with bit pattern at least
    [0x8007FFFFFFFFFFFF] (float32: [0x803FFFFF]), which takes in every
    negative normal number and minus infinity; and it is byte-wise below
    the key of every [v] that is zero or positive, plus infinity
    included. *)
Theorem canonical_nan_position :
  (forall v, IsNaN (float64_val v) = true ->
             encodeFloat64 v = PutUint64 0x7FF8000000000001) /\
  (forall v, IsNaN (float32_val v) = true ->
             encodeFloat32 v = PutUint32 0x7FC00001) /\
  (forall v, is_uint64 v -> IsNaN (float64_val v) = false -> v <> negzero64 ->
     (bytes_lt (encodeFloat64 v) (PutUint64 0x7FF8000000000001) <->
      float_lt0 (float64_val v) = true /\ 0x8007FFFFFFFFFFFF <= v) /\
     (float_lt0 (float64_val v) = false ->
      bytes_lt (PutUint64 0x7FF8000000000001) (encodeFloat64 v))) /\
  (forall v, is_uint32 v -> IsNaN (float32_val v) = false -> v <> negzero32 ->
     (bytes_lt (encodeFloat32 v) (PutUint32 0x7FC00001) <->
      float_lt0 (float32_val v) = true /\ 0x803FFFFF <= v) /\
     (float_lt0 (float32_val v) = false ->
      bytes_lt (PutUint32 0x7FC00001) (encodeFloat32 v))).
Proof.
  split; [| split; [| split]].
  - intros v N. unfold encodeFloat64. now rewrite N.
  - intros v N. unfold encodeFloat32. now rewrite N.
  - intros v Hv Nv Zv.
    rewrite encodeFloat64_bits, float64_lt0 by assumption.
    unfold is_uint64, negzero64 in *. unfold bytes_lt.
    assert (P : 2 ^ 64 = 18446744073709551616) by reflexivity.
    assert (Q : 2 ^ 63 = 9223372036854775808) by reflexivity.
    pose proof (sign_magnitude_range 63 v ltac:(lia)) as R.
    rewrite !PutUint64_compare
      by (unfold is_uint64; destruct (sign_magnitude 63 v <? 0); lia).
    rewrite !Z.compare_lt_iff.
    unfold sign_magnitude in *.
    destruct (Z.ltb_spec v (2 ^ 63)) as [Lo | Hi].
    + replace (v <? 0) with false by (symmetry; apply Z.ltb_ge; lia).
      split; [split |]; [intros; lia | intros [? _]; discriminate | intros; lia].
    + replace (- (v - 2 ^ 63) <? 0) with true by (symmetry; apply Z.ltb_lt; lia).
      split; [split |]; [intros; split; [reflexivity | lia] | intros [_ ?]; lia | discriminate].
  - intros v Hv Nv Zv.
    rewrite encodeFloat32_bits, float32_lt0 by assumption.
    unfold is_uint32, negzero32 in *. unfold bytes_lt.
    assert (P : 2 ^ 32 = 4294967296) by reflexivity.
    assert (Q : 2 ^ 31 = 2147483648) by reflexivity.
    pose proof (sign_magnitude_range 31 v ltac:(lia)) as R.
    rewrite !PutUint32_compare
      by (unfold is_uint32; destruct (sign_magnitude 31 v <? 0); lia).
    rewrite !Z.compare_lt_iff.
    unfold sign_magnitude in *.
    destruct (Z.ltb_spec v (2 ^ 31)) as [Lo | Hi].
    + replace (v <? 0) with false by (symmetry; apply Z.ltb_ge; lia).
      split; [split |]; [intros; lia | intros [? _]; discriminate | intros; lia].
    + replace (- (v - 2 ^ 31) <? 0) with true by (symmetry; apply Z.ltb_lt; lia).
      split; [split |]; [intros; split; [reflexivity | lia] | intros [_ ?]; lia | discriminate].
Qed.

Lemma canonical_nan_position_witness :
  encodeFloat64 0x7FF8000000000000 = PutUint64 0x7FF8000000000001 /\
  encodeFloat32 0x7FC00000 = PutUint32 0x7FC00001 /\
  ((bytes_lt (encodeFloat64 0xBFF0000000000000) (PutUint64 0x7FF8000000000001) <->
    float_lt0 (float64_val 0xBFF0000000000000) = true /\
    0x8007FFFFFFFFFFFF <= 0xBFF0000000000000) /\
   (float_lt0 (float64_val 0xBFF0000000000000) = false ->
    bytes_lt (PutUint64 0x7FF8000000000001) (encodeFloat64 0xBFF0000000000000))) /\
  ((bytes_lt (encodeFloat32 0x3F800000) (PutUint32 0x7FC00001) <->
    float_lt0 (float32_val 0x3F800000) = true /\ 0x803FFFFF <= 0x3F800000) /\
   (float_lt0 (float32_val 0x3F800000) = false ->
    bytes_lt (PutUint32 0x7FC00001) (encodeFloat32 0x3F800000))).
Proof.
  destruct canonical_nan_position as (N64 & N32 & P64 & P32).
  split; [apply N64; reflexivity |].
  split; [apply N32; reflexivity |].
  split.
  - apply P64; [unfold is_uint64; simpl; lia | reflexivity | unfold negzero64; discriminate].
  - apply P32; [unfold is_uint32; simpl; lia | reflexivity | unfold negzero32; discriminate].
Defined.

(** * Further properties of the code *)

(** ** Integer encoders *)

(** X1.  The unsigned encoders keep the order exactly: for two values of
    the width, the byte-wise comparison of their big-endian keys is the
    comparison of the values, so equal keys mean equal values. *)
Theorem unsigned_encoders_compare (a b : Z) :
  (is_uint16 a -> is_uint16 b ->
   bytes_compare (encodeUint16 a) (encodeUint16 b) = (a ?= b)) /\
  (is_uint32 a -> is_uint32 b ->
   bytes_compare (encodeUint32 a) (encodeUint32 b) = (a ?= b)) /\
  (is_uint64 a -> is_uint64 b ->
   bytes_compare (encodeUint64 a) (encodeUint64 b) = (a ?= b)).
Proof.
  unfold encodeUint16, encodeUint32, encodeUint64.
  repeat split; intros Ha Hb;
    [apply PutUint16_compare | apply PutUint32_compare | apply PutUint64_compare];
    assumption.
Qed.

Lemma unsigned_encoders_compare_witness :
  bytes_compare (encodeUint16 65535) (encodeUint16 256) = (65535 ?= 256) /\
  bytes_compare (encodeUint32 255) (encodeUint32 256) = (255 ?= 256) /\
  bytes_compare (encodeUint64 123) (encodeUint64 123) = (123 ?= 123).
Proof.
  split; [| split].
  - apply (proj1 (unsigned_encoders_compare 65535 256));
      unfold is_uint16; simpl; lia.
  - apply (proj1 (proj2 (unsigned_encoders_compare 255 256)));
      unfold is_uint32; simpl; lia.
  - apply (proj2 (proj2 (unsigned_encoders_compare 123 123)));
      unfold is_uint64; simpl; lia.
Defined.

(** X2.  The signed encoders lose nothing: two integers of one width
    with the same key are equal, and a key that is byte-wise smaller
    belongs to the smaller integer. *)
Theorem signed_encoders_reflect_order (a b : Z) :
  (is_int16 a -> is_int16 b ->
   (encodeInt16 a = encodeInt16 b -> a = b) /\
   (bytes_lt (encodeInt16 a) (encodeInt16 b) -> a < b)) /\
  (is_int32 a -> is_int32 b ->
   (encodeInt32 a = encodeInt32 b -> a = b) /\
   (bytes_lt (encodeInt32 a) (encodeInt32 b) -> a < b)) /\
  (is_int64 a -> is_int64 b ->
   (encodeInt64 a = encodeInt64 b -> a = b) /\
   (bytes_lt (encodeInt64 a) (encodeInt64 b) -> a < b)).
Proof.
  unfold bytes_lt. split; [| split]; intros Ha Hb; split; intros H.
  - apply Z.compare_eq_iff. rewrite <- encodeInt16_compare by assumption.
    rewrite H. apply bytes_compare_refl.
  - change ((a ?= b) = Lt). now rewrite <- encodeInt16_compare.
  - apply Z.compare_eq_iff. rewrite <- encodeInt32_compare by assumption.
    rewrite H. apply bytes_compare_refl.
  - change ((a ?= b) = Lt). now rewrite <- encodeInt32_compare.
  - apply Z.compare_eq_iff. rewrite <- encodeInt64_compare by assumption.
    rewrite H. apply bytes_compare_refl.
  - change ((a ?= b) = Lt). now rewrite <- encodeInt64_compare.
Qed.

Lemma signed_encoders_reflect_order_witness :
  ((encodeInt16 (-1) = encodeInt16 0 -> -1 = 0) /\
   (bytes_lt (encodeInt16 (-1)) (encodeInt16 0) -> -1 < 0)) /\
  ((encodeInt32 (-1) = encodeInt32 0 -> -1 = 0) /\
   (bytes_lt (encodeInt32 (-1)) (encodeInt32 0) -> -1 < 0)) /\
  ((encodeInt64 (-1) = encodeInt64 0 -> -1 = 0) /\
   (bytes_lt (encodeInt64 (-1)) (encodeInt64 0) -> -1 < 0)).
Proof.
  split; [| split].
  - apply (proj1 (signed_encoders_reflect_order (-1) 0));
      unfold is_int16; simpl; lia.
  - apply (proj1 (proj2 (signed_encoders_reflect_order (-1) 0)));
      unfold is_int32; simpl; lia.
  - apply (proj2 (proj2 (signed_encoders_reflect_order (-1) 0)));
      unfold is_int64; simpl; lia.
Defined.

(** ** Float encoders *)

(** X4.  Away from NaN and negative zero [encodeFloat32] keeps the order
    of the float32 values in both directions: [a < b] numerically exactly
    when the key of [a] is byte-wise below the key of [b]. *)
Theorem encodeFloat32_preserves_order (a b : Z)
  (Ha : is_uint32 a) (Hb : is_uint32 b)
  (Na : IsNaN (float32_val a) = false) (Nb : IsNaN (float32_val b) = false)
  (Za : a <> negzero32) (Zb : b <> negzero32) :
  float32_lt a b = true <-> bytes_lt (encodeFloat32 a) (encodeFloat32 b).
Proof.
  unfold float32_lt, SFltb, bytes_lt.
  rewrite encodeFloat32_compare by assumption.
  destruct (bytes_compare (encodeFloat32 a) (encodeFloat32 b)); split; congruence.
Qed.

Lemma encodeFloat32_preserves_order_witness :
  float32_lt 0xC048F5C3 0x4048F5C3 = true <->
  bytes_lt (encodeFloat32 0xC048F5C3) (encodeFloat32 0x4048F5C3).
Proof.
  apply (encodeFloat32_preserves_order 0xC048F5C3 0x4048F5C3);
    try (unfold is_uint32; simpl; lia); try reflexivity;
    unfold negzero32; discriminate.
Defined.

Lemma encodeFloat64_preserves_order_witness :
  float64_lt 0xFFF0000000000000 0x0000000000000001 = true <->
  bytes_lt (encodeFloat64 0xFFF0000000000000) (encodeFloat64 0x0000000000000001).
Proof.
  apply (encodeFloat64_preserves_order 0xFFF0000000000000 0x0000000000000001);
    try (unfold is_uint64; simpl; lia); try reflexivity;
    unfold negzero64; discriminate.
Defined.

(** ** [NewLexKey]: the layout of a key *)

Lemma bytes_of_append s l : bytes_of (append s l) = bytes_of s ++ l.
Proof. destruct s, l; simpl; auto using app_nil_r. Qed.

Lemma append_append s a b : append (append s a) b = append s (a ++ b).
Proof.
  destruct s as [l |]; simpl.
  - destruct a, b; simpl; now rewrite <- ?app_assoc.
  - destruct a; simpl; [reflexivity |]. now destruct b.
Qed.

Lemma encodeToBytes_supported v :
  (forall T, v <> AOther T) -> snd (encodeToBytes v) = None.
Proof. intros H. destruct (encodeToBytes_ok v H) as [k ->]. reflexivity. Qed.

Lemma NewLexKey_loop_layout n i parts result :
  (forall T, ~ In (AOther T) parts) ->
  n = i + Z.of_nat (List.length parts) ->
  NewLexKey_loop n i parts result =
  (append result (join (map part_bytes parts)), None).
Proof.
  revert i result. induction parts as [| part rest IH]; intros i result Hok Hn.
  - simpl. destruct result; simpl; now rewrite ?app_nil_r.
  - cbn [NewLexKey_loop].
    assert (Hpart : snd (encodeToBytes part) = None).
    { apply encodeToBytes_supported. intros T ->. apply (Hok T). now left. }
    unfold part_bytes in *.
    destruct (encodeToBytes part) as [encoded err] eqn:E. simpl in Hpart. subst err.
    assert (Hrest : forall T, ~ In (AOther T) rest)
      by (intros T HIn; apply (Hok T); now right).
    destruct rest as [| part' rest'].
    + replace (i <? n - 1) with false
        by (symmetry; apply Z.ltb_ge; simpl List.length in Hn; lia).
      simpl. rewrite E. reflexivity.
    + replace (i <? n - 1) with true
        by (symmetry; apply Z.ltb_lt; simpl List.length in Hn; lia).
      rewrite IH; [| assumption | simpl List.length in *; lia].
      rewrite !append_append. cbn [map join]. rewrite E. reflexivity.
Qed.

(** When [NewLexKey] succeeds, and with which key. *)
Lemma NewLexKey_success_iff (parts : list any) (key : LexKey) :
  NewLexKey parts = (key, None) <->
  parts <> [] /\ (forall T, ~ In (AOther T) parts) /\
  key = append None (join (map part_bytes parts)).
Proof.
  unfold NewLexKey. destruct parts as [| part rest].
  - simpl. split; [discriminate | intros (H & _); now destruct H].
  - replace (Z.of_nat (List.length (part :: rest)) =? 0) with false
      by (symmetry; apply Z.eqb_neq; simpl List.length; lia).
    split.
    + intros H.
      assert (Hok : forall T, ~ In (AOther T) (part :: rest)).
      { intros T HIn.
        destruct (NewLexKey_loop_unsupported
                    (Z.of_nat (List.length (part :: rest))) 0 (part :: rest) None T HIn)
          as (T' & _ & E).
        rewrite E in H. discriminate. }
      rewrite NewLexKey_loop_layout in H by (assumption || lia).
      inversion H. repeat split; [discriminate | assumption].
    + intros (_ & Hok & ->). apply NewLexKey_loop_layout; [assumption | lia].
Qed.

(** X5.  [NewLexKey] succeeds exactly when it is given at least one part
    and every part has a kind of the type switch; the key is then the
    encodings of the parts in order, one separator byte between
    consecutive parts and none at the end. *)
Theorem NewLexKey_layout (parts : list any) (key : LexKey) :
  NewLexKey parts = (key, None) <->
  parts <> [] /\ (forall T, ~ In (AOther T) parts) /\
  key = append None (join (map part_bytes parts)).
Proof. apply NewLexKey_success_iff. Qed.

(** X6.  [NewLexKey] returns a nil key together with a nil error exactly
    when it is given a single part whose encoding has no bytes (the empty
    string, an empty or nil byte slice); [NewPrimaryKey] takes such a key
    for a missing component, whatever the other component is. *)
Theorem NewLexKey_nil_without_error (parts : list any) :
  (NewLexKey parts = (None, None) <->
   exists part, parts = [part] /\ (forall T, part <> AOther T) /\ part_bytes part = []) /\
  (NewLexKey parts = (None, None) ->
   forall other,
     fst (NewPrimaryKey (fst (NewLexKey parts)) other) = PrimaryKey_zero /\
     fst (NewPrimaryKey other (fst (NewLexKey parts))) = PrimaryKey_zero).
Proof.
  split.
  - rewrite NewLexKey_success_iff. split.
    + intros (Hne & Hok & Hkey).
      destruct parts as [| part [| part' rest]]; [now destruct Hne | |].
      * exists part. split; [reflexivity |]. split.
        -- intros T ->. apply (Hok T). now left.
        -- simpl in Hkey. destruct (part_bytes part); [reflexivity | discriminate].
      * exfalso. cbn [map join] in Hkey.
        destruct (part_bytes part); discriminate.
    + intros (part & -> & Hok & Hb). split; [discriminate |]. split.
      * intros T [-> | []]. now apply (Hok T).
      * simpl. now rewrite Hb.
  - intros -> other. split; [reflexivity | now destruct other].
Qed.

Lemma NewLexKey_nil_without_error_witness :
  fst (NewPrimaryKey (fst (NewLexKey [AString []])) (Some (text "row"))) = PrimaryKey_zero /\
  fst (NewPrimaryKey (Some (text "row")) (fst (NewLexKey [AString []]))) = PrimaryKey_zero.
Proof.
  apply (proj2 (NewLexKey_nil_without_error [AString []]) eq_refl (Some (text "row"))).
Defined.

Lemma join_app (ps qs : list (list byte)) :
  ps <> [] -> qs <> [] ->
  join (ps ++ qs) = join ps ++ [Seperator] ++ join qs.
Proof.
  intros Hp Hq. induction ps as [| p ps IH]; [now destruct Hp |].
  destruct ps as [| p' ps'].
  - simpl. destruct qs; [now destruct Hq | reflexivity].
  - change (join ((p :: p' :: ps') ++ qs)) with (p ++ Seperator :: join ((p' :: ps') ++ qs)).
    rewrite IH by discriminate.
    change (join (p :: p' :: ps')) with (p ++ Seperator :: join (p' :: ps')).
    now rewrite <- app_assoc.
Qed.

(** The key of [ps ++ qs] from the keys of [ps] and [qs]. *)
Lemma NewLexKey_app_bytes (ps qs : list any) (kp kq : LexKey)
  (Hp : NewLexKey ps = (kp, None)) (Hq : NewLexKey qs = (kq, None)) :
  exists k, NewLexKey (ps ++ qs) = (k, None) /\
            bytes_of k = bytes_of kp ++ [Seperator] ++ bytes_of kq.
Proof.
  apply NewLexKey_success_iff in Hp as (Np & Okp & ->).
  apply NewLexKey_success_iff in Hq as (Nq & Okq & ->).
  exists (append None (join (map part_bytes (ps ++ qs)))). split.
  - apply NewLexKey_success_iff. split; [| split; [| reflexivity]].
    + destruct ps; [now destruct Np | discriminate].
    + intros T HIn. apply in_app_or in HIn as [H | H]; [now apply (Okp T) | now apply (Okq T)].
  - rewrite !bytes_of_append. simpl. rewrite map_app.
    apply join_app; destruct ps, qs; try discriminate; contradiction.
Qed.

(** X7.  Keys compose: when [ps] and [qs] each make a key, so does
    [ps ++ qs], and its bytes are the key of [ps], one separator byte, and
    the key of [qs]. *)
Theorem NewLexKey_app (ps qs : list any) (kp kq : LexKey)
  (Hp : NewLexKey ps = (kp, None)) (Hq : NewLexKey qs = (kq, None)) :
  exists k, NewLexKey (ps ++ qs) = (k, None) /\
            bytes_of k = bytes_of kp ++ [Seperator] ++ bytes_of kq.
Proof. exact (NewLexKey_app_bytes ps qs kp kq Hp Hq). Qed.

Lemma NewLexKey_app_witness :
  exists k, NewLexKey ([AString (text "foo")] ++ [AInt 42; ABool true]) = (k, None) /\
            bytes_of k =
              bytes_of (Some (text "foo")) ++ [Seperator] ++
              bytes_of (fst (NewLexKey [AInt 42; ABool true])).
Proof.
  apply (NewLexKey_app [AString (text "foo")] [AInt 42; ABool true]
           (Some (text "foo")) (fst (NewLexKey [AInt 42; ABool true])));
    reflexivity.
Defined.

(** ** Order of keys of several parts *)

Lemma bytes_compare_app_ne a b c d :
  List.length a = List.length b -> bytes_compare a b <> Eq ->
  bytes_compare (a ++ c) (b ++ d) = bytes_compare a b.
Proof.
  revert b; induction a as [| x a IH]; intros [| y b]; simpl; try discriminate.
  - congruence.
  - intros L N. destruct (byte.unsigned x ?= byte.unsigned y); auto.
Qed.

(** The key of [ps ++ x :: qs] is a part owed to [ps], the bytes of [x],
    and a part owed to [qs]. *)
Lemma join_middle (ps qs : list (list byte)) (x : list byte) :
  join (ps ++ x :: qs) =
  List.concat (map (fun p => p ++ [Seperator]) ps) ++ x ++
  List.concat (map (fun q => Seperator :: q) qs).
Proof.
  induction ps as [| p ps IH].
  - simpl. revert x. induction qs as [| q qs IHq]; intros x; simpl.
    + now rewrite app_nil_r.
    + now rewrite IHq.
  - change ((p :: ps) ++ x :: qs) with (p :: (ps ++ x :: qs)).
    destruct (ps ++ x :: qs) as [| z zs] eqn:E; [now destruct ps |].
    change (join (p :: z :: zs)) with (p ++ Seperator :: join (z :: zs)).
    rewrite IH. simpl. now rewrite <- !app_assoc.
Qed.

(** X8.  Two keys that share their leading parts [ps] and go on with
    parts [x] and [y] whose encodings have one length and differ are
    ordered as those two encodings are, whatever parts follow. *)
Theorem NewLexKey_orders_by_first_difference
  (ps qs qs' : list any) (x y : any) (kx ky : LexKey)
  (Hx : NewLexKey (ps ++ x :: qs) = (kx, None))
  (Hy : NewLexKey (ps ++ y :: qs') = (ky, None))
  (Hlen : List.length (part_bytes x) = List.length (part_bytes y))
  (Hne : part_bytes x <> part_bytes y) :
  bytes_compare (bytes_of kx) (bytes_of ky) =
  bytes_compare (part_bytes x) (part_bytes y).
Proof.
  apply NewLexKey_success_iff in Hx as (_ & _ & ->).
  apply NewLexKey_success_iff in Hy as (_ & _ & ->).
  rewrite !bytes_of_append. simpl.
  rewrite !map_app. cbn [map]. rewrite !join_middle.
  rewrite bytes_compare_app.
  apply bytes_compare_app_ne; [assumption |].
  intros E. apply Hne. now apply bytes_compare_eq.
Qed.

Lemma NewLexKey_orders_by_first_difference_witness :
  bytes_compare
    (bytes_of (fst (NewLexKey ([AString (text "foo")] ++ AInt 41 :: [ABool true]))))
    (bytes_of (fst (NewLexKey ([AString (text "foo")] ++ AInt 42 :: [])))) =
  bytes_compare (part_bytes (AInt 41)) (part_bytes (AInt 42)).
Proof.
  apply (NewLexKey_orders_by_first_difference
           [AString (text "foo")] [ABool true] [] (AInt 41) (AInt 42));
    try reflexivity.
  discriminate.
Defined.

(** ** [Encode], [EncodeFirst], [EncodeLast] *)

Lemma NewLexKey_error_cases parts key err :
  NewLexKey parts = (key, Some err) ->
  parts = [] \/ exists T, In (AOther T) parts.
Proof.
  unfold NewLexKey. destruct parts as [| part rest]; [now left |].
  replace (Z.of_nat (List.length (part :: rest)) =? 0) with false
    by (symmetry; apply Z.eqb_neq; simpl List.length; lia).
  intros H. apply NewLexKey_loop_error in H as (_ & T & HT & _).
  right. now exists T.
Qed.

Lemma append_byte_layout (prefix : LexKey) (b : byte) :
  (newKey <- make (len prefix + 1) ;;
   r <- copy newKey 0 prefix ;;
   newKey <- store (fst r) (len prefix) b ;;
   Returns (Some newKey)) = Returns (Some (bytes_of prefix ++ [b])).
Proof.
  unfold len.
  replace (Z.of_nat (List.length (bytes_of prefix)) + 1)
    with (Z.of_nat (List.length (bytes_of prefix) + 1)) by lia.
  rewrite make_of_nat. cbn [bind].
  rewrite (copy_into_zeros_front (bytes_of prefix) 1 _ prefix eq_refl).
  cbn [bind fst repeat]. rewrite store_at. reflexivity.
Qed.

Lemma Encode_layout_helper (parts : list any) (key : LexKey) :
  NewLexKey parts = (key, None) ->
  Encode parts = Returns key /\
  EncodeFirst parts = Returns (Some (bytes_of key ++ [Seperator])) /\
  EncodeLast parts = Returns (Some (bytes_of key ++ [EndMarker])).
Proof.
  intros H. unfold EncodeFirst, EncodeLast, Encode. rewrite H. cbn [bind].
  now rewrite !append_byte_layout.
Qed.

(** X9.  [Encode], [EncodeFirst] and [EncodeLast] panic exactly when
    [NewLexKey] returns an error, that is for zero parts or a part of an
    unsupported kind; otherwise [EncodeFirst] and [EncodeLast] return the
    key followed by the separator, respectively the end marker. *)
Theorem Encode_panics_iff (parts : list any) :
  ((parts = [] \/ exists T, In (AOther T) parts) <->
   Encode parts = Panics /\ EncodeFirst parts = Panics /\ EncodeLast parts = Panics) /\
  (forall key, NewLexKey parts = (key, None) ->
     Encode parts = Returns key /\
     EncodeFirst parts = Returns (Some (bytes_of key ++ [Seperator])) /\
     EncodeLast parts = Returns (Some (bytes_of key ++ [EndMarker]))).
Proof.
  split; [| apply Encode_layout_helper].
  destruct (NewLexKey parts) as [key [err |]] eqn:E.
  - split.
    + intros _. unfold EncodeFirst, EncodeLast, Encode. rewrite E. auto.
    + intros _. apply (NewLexKey_error_cases parts key err E).
  - split.
    + intros H. exfalso. apply NewLexKey_success_iff in E as (Hne & Hok & _).
      destruct H as [-> | (T & HT)]; [now destruct Hne | now apply (Hok T)].
    + intros (H & _). destruct (Encode_layout_helper parts key E) as (H' & _). congruence.
Qed.

Lemma Encode_panics_iff_witness :
  Encode [AString (text "middle")] = Returns (Some (text "middle")) /\
  EncodeFirst [AString (text "middle")] =
    Returns (Some (bytes_of (Some (text "middle")) ++ [Seperator])) /\
  EncodeLast [AString (text "middle")] =
    Returns (Some (bytes_of (Some (text "middle")) ++ [EndMarker])).
Proof.
  apply (proj2 (Encode_panics_iff [AString (text "middle")]) (Some (text "middle"))).
  reflexivity.
Defined.

Lemma Seperator_below_EndMarker : byte.unsigned Seperator < byte.unsigned EndMarker.
Proof. reflexivity. Qed.

(** Every continuation of [k] by a separator lies in
    [[k ++ [Seperator], k ++ [EndMarker])]. *)
Lemma separator_continuation_in_range k rest :
  in_range (k ++ [Seperator]) (k ++ [EndMarker]) (k ++ [Seperator] ++ rest).
Proof.
  unfold in_range, bytes_le, bytes_lt. rewrite !bytes_compare_app. split.
  - simpl. destruct rest; discriminate.
  - reflexivity.
Qed.

(** X10.  [EncodeFirst] and [EncodeLast] of some leading parts bracket
    every longer key: if [parts] makes a key and [parts ++ more] does too,
    with [more] not empty, the longer key lies in the half-open interval
    from [EncodeFirst parts] to [EncodeLast parts]; the key of [parts]
    itself lies just below it. *)
Theorem EncodeFirst_EncodeLast_bracket (parts more : list any) (k k' : LexKey)
  (Hk : NewLexKey parts = (k, None))
  (Hk' : NewLexKey (parts ++ more) = (k', None))
  (Hmore : more <> []) :
  exists first last,
    EncodeFirst parts = Returns (Some first) /\
    EncodeLast parts = Returns (Some last) /\
    in_range first last (bytes_of k') /\
    bytes_lt (bytes_of k) first.
Proof.
  exists (bytes_of k ++ [Seperator]), (bytes_of k ++ [EndMarker]).
  destruct (Encode_layout_helper parts k Hk) as (_ & HF & HL).
  split; [exact HF |]. split; [exact HL |].
  assert (Hq : exists kq, NewLexKey more = (kq, None)).
  { exists (append None (join (map part_bytes more))).
    apply NewLexKey_success_iff. apply NewLexKey_success_iff in Hk' as (_ & Hok & _).
    split; [assumption |]. split; [| reflexivity].
    intros T HIn. apply (Hok T). apply in_or_app. now right. }
  destruct Hq as (kq & Hq).
  destruct (NewLexKey_app_bytes parts more k kq Hk Hq) as (k2 & Hk2 & Hb).
  rewrite Hk' in Hk2. inversion Hk2; subst k2. rewrite Hb.
  split; [apply separator_continuation_in_range |].
  unfold bytes_lt. rewrite <- (app_nil_r (bytes_of k)) at 1.
  now rewrite bytes_compare_app.
Qed.

Lemma EncodeFirst_EncodeLast_bracket_witness :
  exists first last,
    EncodeFirst [AString (text "user")] = Returns (Some first) /\
    EncodeLast [AString (text "user")] = Returns (Some last) /\
    in_range first last
      (bytes_of (fst (NewLexKey ([AString (text "user")] ++ [AInt 7])))) /\
    bytes_lt (bytes_of (Some (text "user"))) first.
Proof.
  apply (EncodeFirst_EncodeLast_bracket [AString (text "user")] [AInt 7]
           (Some (text "user")) (fst (NewLexKey ([AString (text "user")] ++ [AInt 7]))));
    [reflexivity | reflexivity | discriminate].
Defined.

(** X11.  The method [EncodeLast] of the single-file variant never
    panics and returns the key followed by the end marker; the key itself
    is strictly below that bound, and so is every extension of the key
    whose next byte is not [0xFF]. *)
Theorem SingleFile_EncodeLast_bound (e : LexKey) :
  SingleFile.EncodeLast e = Returns (bytes_of e ++ [EndMarker]) /\
  bytes_lt (bytes_of e) (bytes_of e ++ [EndMarker]) /\
  (forall c rest, c <> EndMarker ->
     bytes_lt (bytes_of e ++ c :: rest) (bytes_of e ++ [EndMarker])).
Proof.
  split; [| split].
  - unfold SingleFile.EncodeLast, len.
    replace (Z.of_nat (List.length (bytes_of e)) + 1)
      with (Z.of_nat (List.length (bytes_of e) + 1)) by lia.
    rewrite make_of_nat. cbn [bind].
    rewrite (copy_into_zeros_front (bytes_of e) 1 _ e eq_refl).
    cbn [bind fst repeat]. now rewrite store_at.
  - unfold bytes_lt. rewrite <- (app_nil_r (bytes_of e)) at 1.
    now rewrite bytes_compare_app.
  - intros c rest Hc. unfold bytes_lt. rewrite bytes_compare_app. simpl.
    apply below_EndMarker in Hc. apply Z.compare_lt_iff in Hc. now rewrite Hc.
Qed.

(** ** Hexadecimal text *)

(** One byte, written by [hex] and read back by [DecodeString]. *)
Lemma DecodeString_hex_byte (b : byte) (rest : string) :
  DecodeString (hex_digit (byte.unsigned b / 16) ++
                hex_digit (byte.unsigned b mod 16) ++ rest)%string =
  let '(bytes, err) := DecodeString rest in (b :: bytes, err).
Proof. destruct b; reflexivity. Qed.

Lemma DecodeString_hex (l : list byte) : DecodeString (hex l) = (l, None).
Proof.
  induction l as [| b l IH]; [reflexivity |].
  cbn [hex]. rewrite DecodeString_hex_byte, IH. reflexivity.
Qed.

Lemma hex_length_pos (b : byte) (l : list byte) :
  (Z.of_nat (String.length (hex (b :: l))) =? 0) = false.
Proof.
  apply Z.eqb_neq. cbn [hex].
  assert (H : exists c s, hex_digit (byte.unsigned b / 16) = String c s)
    by (destruct b; eexists; eexists; reflexivity).
  destruct H as (c & s & ->). simpl. lia.
Qed.

(** X12.  Hexadecimal text round-trips: reading back what [ToHexString]
    wrote for a key succeeds, whatever the receiver held, and leaves the
    receiver holding the key's bytes in a non-nil slice (a nil key comes
    back as the empty one).  The text is empty exactly for the keys
    [IsEmpty] accepts, the nil key among them. *)
Theorem FromHexString_ToHexString (e k : LexKey) :
  FromHexString e (ToHexString k) = (Some (bytes_of k), None) /\
  (ToHexString k = EmptyString <-> IsEmpty k = true).
Proof.
  unfold ToHexString, FromHexString, IsEmpty, len.
  destruct (bytes_of k) as [| b l]; [split; [reflexivity | tauto] |].
  replace (Z.of_nat (List.length (b :: l)) =? 0) with false
    by (symmetry; apply Z.eqb_neq; simpl List.length; lia).
  rewrite hex_length_pos, DecodeString_hex. split; [reflexivity |].
  pose proof (hex_length_pos b l) as L.
  split; [| discriminate]. intros H. rewrite H in L. discriminate.
Qed.

Lemma gtb_false x y : x <= y -> (x >? y) = false.
Proof. intros H. rewrite Z.gtb_ltb. apply Z.ltb_ge. lia. Qed.

(** What [DecodeString] makes of a string of hexadecimal digits: no
    error for an even length, [ErrLength] for an odd one. *)
Lemma DecodeString_all_hex (s : string) :
  all_hex s = true ->
  snd (DecodeString s) = (if Nat.even (String.length s) then None else Some ErrLength) /\
  (forall c, all_hex (String c s) = true ->
     snd (DecodeString (String c s)) =
     (if Nat.even (String.length s) then Some ErrLength else None)).
Proof.
  induction s as [| q s IH]; intros H.
  - split; [reflexivity |]. intros c Hc. simpl in *.
    apply andb_true_iff in Hc as [Hc _]. unfold is_hex_digit in Hc.
    apply Z.leb_le in Hc.
    replace (reverseHexTable c >? 15) with false by (symmetry; now apply gtb_false).
    reflexivity.
  - cbn [all_hex] in H. apply andb_true_iff in H as [Hq Hs].
    destruct (IH Hs) as [IH1 IH2]. split.
    + rewrite (IH2 q) by (cbn [all_hex]; now rewrite Hq, Hs).
      cbn [String.length]. rewrite Nat.even_succ, <- Nat.negb_even.
      now destruct (Nat.even (String.length s)).
    + intros c Hc. cbn [all_hex] in Hc. apply andb_true_iff in Hc as [Hc _].
      unfold is_hex_digit in Hc, Hq. apply Z.leb_le in Hc, Hq.
      cbn [DecodeString].
      replace (reverseHexTable c >? 15) with false by (symmetry; now apply gtb_false).
      replace (reverseHexTable q >? 15) with false by (symmetry; now apply gtb_false).
      destruct (DecodeString s) as [bytes err]. simpl in IH1. subst err.
      cbn [String.length]. rewrite Nat.even_succ, <- Nat.negb_even.
      now destruct (Nat.even (String.length s)).
Qed.

Lemma DecodeString_length (s : string) :
  all_hex s = true ->
  List.length (fst (DecodeString s)) = Nat.div2 (String.length s) /\
  (forall c, all_hex (String c s) = true ->
     List.length (fst (DecodeString (String c s))) = Nat.div2 (S (String.length s))).
Proof.
  induction s as [| q s IH]; intros H.
  - split; [reflexivity |]. intros c Hc. simpl.
    now destruct (reverseHexTable c >? 15).
  - cbn [all_hex] in H. apply andb_true_iff in H as [Hq Hs].
    destruct (IH Hs) as [IH1 IH2]. split.
    + apply (IH2 q). cbn [all_hex]. now rewrite Hq, Hs.
    + intros c Hc. cbn [all_hex] in Hc. apply andb_true_iff in Hc as [Hc _].
      unfold is_hex_digit in Hc, Hq. apply Z.leb_le in Hc, Hq.
      cbn [DecodeString].
      rewrite (gtb_false _ _ Hc), (gtb_false _ _ Hq).
      destruct (DecodeString s) as [bytes err]. simpl in IH1.
      cbn [String.length fst List.length Nat.div2]. now rewrite IH1.
Qed.

(** The first character that is no hexadecimal digit is the one
    [DecodeString] complains about. *)
Lemma DecodeString_invalid (pre : string) (c : Ascii.ascii) (rest : string) :
  all_hex pre = true -> is_hex_digit c = false ->
  snd (DecodeString (pre ++ String c rest)) = Some (InvalidByteError c) /\
  (forall d, is_hex_digit d = true ->
     snd (DecodeString (String d (pre ++ String c rest))) = Some (InvalidByteError c)).
Proof.
  intros Hpre Hc.
  assert (Gc : (reverseHexTable c >? 15) = true).
  { unfold is_hex_digit in Hc. apply Z.leb_gt in Hc. rewrite Z.gtb_ltb. apply Z.ltb_lt. lia. }
  induction pre as [| q pre IH].
  - split.
    + simpl. destruct rest; now rewrite Gc.
    + intros d Hd. unfold is_hex_digit in Hd. apply Z.leb_le in Hd.
      simpl. now rewrite (gtb_false _ _ Hd), Gc.
  - cbn [all_hex] in Hpre. apply andb_true_iff in Hpre as [Hq Hp].
    destruct (IH Hp) as [IH1 IH2]. split.
    + apply (IH2 q Hq).
    + intros d Hd. unfold is_hex_digit in Hd, Hq. apply Z.leb_le in Hd, Hq.
      change (String d (String q pre ++ String c rest))%string
        with (String d (String q (pre ++ String c rest))).
      cbn [DecodeString].
      rewrite (gtb_false _ _ Hd), (gtb_false _ _ Hq).
      destruct (DecodeString (pre ++ String c rest)) as [bytes err].
      exact IH1.
Qed.

Lemma string_length_app (s t : string) :
  String.length (s ++ t) = (String.length s + String.length t)%nat.
Proof. induction s as [| c s IH]; simpl; auto. Qed.

(** X13.  [FromHexString] on text that is not the hexadecimal form of a
    key: with a character that is no hexadecimal digit it fails with the
    decode error naming the first such character, also when the length is
    odd; with digits only and an odd length it fails with the length
    error; in both cases the receiver keeps the key it held.  With digits
    only and an even length it succeeds with half as many bytes, in a
    non-nil slice. *)
Theorem FromHexString_outcomes (e : LexKey) (s : string) :
  (forall pre c rest,
     s = (pre ++ String c rest)%string -> all_hex pre = true -> is_hex_digit c = false ->
     FromHexString e s = (e, Some (HexDecodeFailed (InvalidByteError c)))) /\
  (all_hex s = true -> Nat.even (String.length s) = false ->
   FromHexString e s = (e, Some (InvalidHexLength ErrLength))) /\
  (all_hex s = true -> Nat.even (String.length s) = true ->
   exists bytes, FromHexString e s = (Some bytes, None) /\
                 String.length s = (2 * List.length bytes)%nat).
Proof.
  split; [| split].
  - intros pre c rest -> Hpre Hc. unfold FromHexString.
    replace (Z.of_nat (String.length (pre ++ String c rest)) =? 0) with false
      by (symmetry; apply Z.eqb_neq; rewrite string_length_app; simpl; lia).
    destruct (DecodeString_invalid pre c rest Hpre Hc) as [H _].
    destruct (DecodeString (pre ++ String c rest)) as [bytes err].
    simpl in H. subst err. reflexivity.
  - intros Hs Hodd. unfold FromHexString.
    destruct s as [| c s]; [discriminate |].
    replace (Z.of_nat (String.length (String c s)) =? 0) with false
      by (symmetry; apply Z.eqb_neq; simpl; lia).
    destruct (DecodeString_all_hex _ Hs) as [H _]. rewrite Hodd in H.
    destruct (DecodeString (String c s)) as [bytes err].
    simpl in H. subst err. reflexivity.
  - intros Hs Heven. unfold FromHexString.
    destruct s as [| c s]; [now exists [] |].
    replace (Z.of_nat (String.length (String c s)) =? 0) with false
      by (symmetry; apply Z.eqb_neq; simpl; lia).
    destruct (DecodeString_all_hex _ Hs) as [H _]. rewrite Heven in H.
    destruct (DecodeString_length _ Hs) as [L _].
    destruct (DecodeString (String c s)) as [bytes err].
    cbn [fst snd] in H, L. subst err. exists bytes. split; [reflexivity |].
    rewrite L. apply Nat.even_spec in Heven as [n Hn].
    rewrite Hn, Nat.div2_double. reflexivity.
Qed.

Lemma FromHexString_outcomes_witness :
  FromHexString (Some (text "kept")) "invalidhex" =
    (Some (text "kept"), Some (HexDecodeFailed (InvalidByteError "i"%char))) /\
  FromHexString (Some (text "kept")) "123" =
    (Some (text "kept"), Some (InvalidHexLength ErrLength)) /\
  (exists bytes, FromHexString (Some (text "kept")) "746573746B6579" = (Some bytes, None) /\
                 String.length "746573746B6579" = (2 * List.length bytes)%nat).
Proof.
  split; [| split].
  - apply (proj1 (FromHexString_outcomes (Some (text "kept")) "invalidhex")
             ""%string "i"%char "nvalidhex"%string); reflexivity.
  - apply (proj1 (proj2 (FromHexString_outcomes (Some (text "kept")) "123")));
      reflexivity.
  - apply (proj2 (proj2 (FromHexString_outcomes (Some (text "kept")) "746573746B6579")));
      reflexivity.
Defined.

(** ** [PrimaryKey.Encode] *)

(** X14.  Within one partition the composite keys are ordered as their
    row keys: [Encode] never panics, and the byte-wise comparison of the
    keys of [(P, R1)] and [(P, R2)] is the comparison of [R1] and [R2]. *)
Theorem PrimaryKey_Encode_orders_rows (P R1 R2 : LexKey) :
  exists k1 k2,
    PrimaryKey_Encode (mkPrimaryKey P R1) = Returns (Some k1) /\
    PrimaryKey_Encode (mkPrimaryKey P R2) = Returns (Some k2) /\
    bytes_compare k1 k2 = bytes_compare (bytes_of R1) (bytes_of R2).
Proof.
  exists (bytes_of P ++ [Seperator] ++ bytes_of R1),
         (bytes_of P ++ [Seperator] ++ bytes_of R2).
  rewrite !PrimaryKey_Encode_layout. simpl PartitionKey. simpl RowKey.
  repeat split. now rewrite !bytes_compare_app.
Qed.

Lemma split_at_first_separator (p1 p2 r1 r2 : list byte) :
  ~ In Seperator p1 -> ~ In Seperator p2 ->
  p1 ++ Seperator :: r1 = p2 ++ Seperator :: r2 -> p1 = p2 /\ r1 = r2.
Proof.
  revert p2. induction p1 as [| x p1 IH]; intros [| y p2] N1 N2 H; simpl in *.
  - inversion H. auto.
  - inversion H; subst. exfalso. apply N2. now left.
  - inversion H; subst. exfalso. apply N1. now left.
  - inversion H; subst.
    destruct (IH p2) as [-> ->]; auto.
Qed.

(** X15.  A composite key determines its two components as long as the
    partition keys hold no separator byte: two [PrimaryKey]s with such
    partitions and the same encoding have the same partition bytes and the
    same row bytes.  Without that condition they need not: the pairs
    [("a" 00 "b", "c")] and [("a", "b" 00 "c")] encode alike. *)
Theorem PrimaryKey_Encode_injective (pk1 pk2 : PrimaryKey)
  (H1 : ~ In Seperator (bytes_of (PartitionKey pk1)))
  (H2 : ~ In Seperator (bytes_of (PartitionKey pk2)))
  (HE : PrimaryKey_Encode pk1 = PrimaryKey_Encode pk2) :
  bytes_of (PartitionKey pk1) = bytes_of (PartitionKey pk2) /\
  bytes_of (RowKey pk1) = bytes_of (RowKey pk2) /\
  PrimaryKey_Encode
    (mkPrimaryKey (Some (text "a" ++ [Seperator] ++ text "b")) (Some (text "c"))) =
  PrimaryKey_Encode
    (mkPrimaryKey (Some (text "a")) (Some (text "b" ++ [Seperator] ++ text "c"))).
Proof.
  rewrite !PrimaryKey_Encode_layout in HE. inversion HE as [HE'].
  apply split_at_first_separator in HE' as [-> ->]; auto.
Qed.

Lemma PrimaryKey_Encode_injective_witness :
  bytes_of (Some (text "p")) = bytes_of (Some (text "p")) /\
  bytes_of (Some (text "r")) = bytes_of (Some (text "r")) /\
  PrimaryKey_Encode
    (mkPrimaryKey (Some (text "a" ++ [Seperator] ++ text "b")) (Some (text "c"))) =
  PrimaryKey_Encode
    (mkPrimaryKey (Some (text "a")) (Some (text "b" ++ [Seperator] ++ text "c"))).
Proof.
  apply (PrimaryKey_Encode_injective
           (mkPrimaryKey (Some (text "p")) (Some (text "r")))
           (mkPrimaryKey (Some (text "p")) (Some (text "r")))).
  - simpl. intros [H | []]. discriminate.
  - simpl. intros [H | []]. discriminate.
  - reflexivity.
Defined.

(** ** [RangeKey.Encode]: the scans it describes *)

(** What lies in [[p ++ [Seperator], p ++ [EndMarker])]: the byte strings
    that go on after [p] with a byte other than the end marker. *)
Lemma prefix_scan (p key : list byte) :
  in_range (p ++ [Seperator]) (p ++ [EndMarker]) key <->
  exists c rest, key = p ++ c :: rest /\ c <> EndMarker.
Proof.
  unfold in_range, bytes_le, bytes_lt. revert key.
  induction p as [| x p IH]; intros [| k key]; simpl.
  - split; [intros [H _]; now destruct H | intros (c & rest & H & _); discriminate].
  - pose proof (byte.unsigned_range k) as Rk.
    change (byte.unsigned Seperator) with 0.
    split.
    + intros [_ H]. exists k, key. split; [reflexivity |].
      apply below_EndMarker.
      destruct (Z.compare_spec (byte.unsigned k) (byte.unsigned EndMarker)); try discriminate;
        [destruct key; discriminate | assumption].
    + intros (c & rest & H & N). inversion H; subst c rest.
      apply below_EndMarker in N. split.
      * destruct (byte.unsigned k) eqn:Ek; try discriminate; [| lia].
        destruct key; discriminate.
      * apply Z.compare_lt_iff in N. now rewrite N.
  - split; [intros [H _]; now destruct H | intros (c & rest & H & _); discriminate].
  - destruct (Z.compare_spec (byte.unsigned x) (byte.unsigned k)) as [Q | L | G].
    + apply byte.unsigned_inj in Q. subst k. rewrite Z.compare_refl, IH. split.
      * intros (c & rest & -> & N). now exists c, rest.
      * intros (c & rest & H & N). inversion H; subst. now exists c, rest.
    + rewrite (proj2 (Z.compare_gt_iff _ _) L). split.
      * intros [_ H]. discriminate.
      * intros (c & rest & H & N). inversion H; subst. lia.
    + split.
      * intros [H _]. now destruct H.
      * intros (c & rest & H & N). inversion H; subst. lia.
Qed.

(** X16.  With both row keys absent (nil or empty) and the partition
    included, [RangeKey.Encode] returns [P 00] and [P FF], and the
    half-open interval between them holds exactly the byte strings that go
    on after [P] with a byte other than [0xFF]; so it holds the composite
    key of every [PrimaryKey] of partition [P], whatever its row. *)
Theorem partition_scan (P S E : LexKey)
  (HS : bytes_of S = []) (HE : bytes_of E = []) :
  RangeKey_Encode (NewRangeKey P S E) true =
    Returns (Some (bytes_of P ++ [Seperator]), Some (bytes_of P ++ [EndMarker])) /\
  (forall key,
     in_range (bytes_of P ++ [Seperator]) (bytes_of P ++ [EndMarker]) key <->
     exists c rest, key = bytes_of P ++ c :: rest /\ c <> EndMarker) /\
  (forall R k,
     PrimaryKey_Encode (mkPrimaryKey P R) = Returns (Some k) ->
     in_range (bytes_of P ++ [Seperator]) (bytes_of P ++ [EndMarker]) k).
Proof.
  split; [| split].
  - rewrite RangeKey_Encode_layout. simpl. now rewrite HS, HE.
  - intros key. apply prefix_scan.
  - intros R k H. rewrite PrimaryKey_Encode_layout in H. inversion H; subst k.
    apply prefix_scan. exists Seperator, (bytes_of R). split; [reflexivity | discriminate].
Qed.

Lemma partition_scan_witness :
  RangeKey_Encode (NewRangeKey (Some (text "partition")) None (Some [])) true =
    Returns (Some (bytes_of (Some (text "partition")) ++ [Seperator]),
             Some (bytes_of (Some (text "partition")) ++ [EndMarker])) /\
  (forall key,
     in_range (bytes_of (Some (text "partition")) ++ [Seperator])
              (bytes_of (Some (text "partition")) ++ [EndMarker]) key <->
     exists c rest, key = bytes_of (Some (text "partition")) ++ c :: rest /\ c <> EndMarker) /\
  (forall R k,
     PrimaryKey_Encode (mkPrimaryKey (Some (text "partition")) R) = Returns (Some k) ->
     in_range (bytes_of (Some (text "partition")) ++ [Seperator])
              (bytes_of (Some (text "partition")) ++ [EndMarker]) k).
Proof.
  apply (partition_scan (Some (text "partition")) None (Some [])); reflexivity.
Defined.

(** X17.  Scans open on one side, the partition included.  With a start
    row [B] and no end row the bounds are [P 00 B] and [P FF], and a
    stored key [P 00 R] is in the interval exactly when [B <= R].  With an
    end row [B] and no start row the bounds are [P 00] and [P 00 B FF],
    and [P 00 R] is in the interval exactly when [R <= B] or [R] is [B]
    followed by a byte other than [0xFF] and anything more. *)
Theorem open_ended_scans (P : LexKey) (B R : list byte) (HB : B <> []) :
  (RangeKey_Encode (NewRangeKey P (Some B) None) true =
     Returns (Some (bytes_of P ++ [Seperator] ++ B), Some (bytes_of P ++ [EndMarker])) /\
   (in_range (bytes_of P ++ [Seperator] ++ B) (bytes_of P ++ [EndMarker])
             (bytes_of P ++ [Seperator] ++ R) <->
    bytes_le B R)) /\
  (RangeKey_Encode (NewRangeKey P None (Some B)) true =
     Returns (Some (bytes_of P ++ [Seperator]),
              Some (bytes_of P ++ [Seperator] ++ B ++ [EndMarker])) /\
   (in_range (bytes_of P ++ [Seperator]) (bytes_of P ++ [Seperator] ++ B ++ [EndMarker])
             (bytes_of P ++ [Seperator] ++ R) <->
    bytes_le R B \/ exists c rest, R = B ++ c :: rest /\ c <> EndMarker)).
Proof.
  destruct B as [| b B]; [contradiction |].
  split; split.
  - rewrite RangeKey_Encode_layout. reflexivity.
  - unfold in_range, bytes_le, bytes_lt. rewrite !bytes_compare_app.
    split; [tauto |]. intros H. split; [exact H | reflexivity].
  - rewrite RangeKey_Encode_layout. reflexivity.
  - unfold in_range. rewrite <- below_end_marker.
    unfold bytes_le, bytes_lt. rewrite !bytes_compare_app.
    split; [tauto |]. intros H. split; [| exact H].
    simpl. destruct R; discriminate.
Qed.

Lemma open_ended_scans_witness :
  (RangeKey_Encode (NewRangeKey (Some (text "p")) (Some (text "m")) None) true =
     Returns (Some (bytes_of (Some (text "p")) ++ [Seperator] ++ text "m"),
              Some (bytes_of (Some (text "p")) ++ [EndMarker])) /\
   (in_range (bytes_of (Some (text "p")) ++ [Seperator] ++ text "m")
             (bytes_of (Some (text "p")) ++ [EndMarker])
             (bytes_of (Some (text "p")) ++ [Seperator] ++ text "z") <->
    bytes_le (text "m") (text "z"))) /\
  (RangeKey_Encode (NewRangeKey (Some (text "p")) None (Some (text "m"))) true =
     Returns (Some (bytes_of (Some (text "p")) ++ [Seperator]),
              Some (bytes_of (Some (text "p")) ++ [Seperator] ++ text "m" ++ [EndMarker])) /\
   (in_range (bytes_of (Some (text "p")) ++ [Seperator])
             (bytes_of (Some (text "p")) ++ [Seperator] ++ text "m" ++ [EndMarker])
             (bytes_of (Some (text "p")) ++ [Seperator] ++ text "z") <->
    bytes_le (text "z") (text "m") \/
    exists c rest, text "z" = text "m" ++ c :: rest /\ c <> EndMarker)).
Proof.
  apply (open_ended_scans (Some (text "p")) (text "m") (text "z")). discriminate.
Defined.

(** X18.  The bounds are in order: when a row bound is absent, or the
    start row is not above the end row, [RangeKey.Encode] returns a lower
    bound strictly below the upper bound, with or without the partition. *)
Theorem RangeKey_bounds_ordered (rk : RangeKey) (withPartitionKey : bool)
  (H : bytes_of (StartRowKey rk) = [] \/ bytes_of (EndRowKey rk) = [] \/
       bytes_le (bytes_of (StartRowKey rk)) (bytes_of (EndRowKey rk))) :
  exists lower upper,
    RangeKey_Encode rk withPartitionKey = Returns (Some lower, Some upper) /\
    bytes_lt lower upper.
Proof.
  rewrite RangeKey_Encode_layout. eexists. eexists. split; [reflexivity |].
  unfold bytes_lt. rewrite bytes_compare_app.
  destruct (bytes_of (StartRowKey rk)) as [| s S] eqn:ES;
    destruct (bytes_of (EndRowKey rk)) as [| e E] eqn:EE; try reflexivity.
  destruct H as [H | [H | H]]; try discriminate.
  rewrite (bytes_compare_app [Seperator]).
  apply (proj2 (below_end_marker (e :: E) (s :: S))). now left.
Qed.

Lemma RangeKey_bounds_ordered_witness :
  exists lower upper,
    RangeKey_Encode (NewRangeKey (Some (text "part")) (Some (text "end")) (Some (text "start")))
                    false = Returns (Some lower, Some upper) /\
    bytes_lt lower upper.
Proof.
  apply (RangeKey_bounds_ordered
           (NewRangeKey (Some (text "part")) (Some (text "end")) (Some (text "start"))) false).
  right. right. discriminate.
Defined.

(** X19.  Leaving the partition out drops exactly the partition bytes
    from the front of both bounds, so a scan of the keys [P ++ key] with
    the partition is the scan of the keys [key] without it. *)
Theorem RangeKey_Encode_without_partition (rk : RangeKey) :
  exists lower upper,
    RangeKey_Encode rk false = Returns (Some lower, Some upper) /\
    RangeKey_Encode rk true =
      Returns (Some (bytes_of (rkPartitionKey rk) ++ lower),
               Some (bytes_of (rkPartitionKey rk) ++ upper)) /\
    (forall key,
       in_range (bytes_of (rkPartitionKey rk) ++ lower)
                (bytes_of (rkPartitionKey rk) ++ upper)
                (bytes_of (rkPartitionKey rk) ++ key) <->
       in_range lower upper key).
Proof.
  rewrite !RangeKey_Encode_layout. eexists. eexists.
  split; [reflexivity |]. split; [reflexivity |].
  intros key. unfold in_range, bytes_le, bytes_lt.
  rewrite !bytes_compare_app. reflexivity.
Qed.
